(** * varstruct: layout resolution and field access

    A shallow embedding of [varstruct_internal.h]: the bookkeeping vectors of
    [VarstructInternal], the [VarstructMember] constructor, the two loops of
    [Varstruct::CreateInternal], the queries [size_bytes], [num_members],
    [name_offset], [name_size], and the [memcpy]-based accessors generated by
    [VARSTRUCT_SCALAR_INTERNAL] and [VARSTRUCT_ARRAY_INTERNAL].

    Conventions.
    - [std::size_t] is an unsigned integer of [w] bits; it is a [Z] and every
      [size_t] operation of the source is followed by [wrap].
    - [std::vector] and [std::deque] are lists; [v[i]] is the total lookup
      [v !!! i] and [v[i] = x] is [<[i:=x]> v].  The loop counters ([int i],
      compared with [num_members()]) range over [0 .. num_members()-1],
      positions that exist, and are [nat]: a class has far fewer than [2^31]
      members.
    - A value of a [decl_type] is its object representation, the
      [sizeof(decl_type)] bytes that [memcpy] copies.
    - [assert] is live (the build does not define NDEBUG): a failed assertion
      ends the call with [AssertionFailed], naming the assertion.
    - A [memcpy] whose byte range is not inside the caller's buffer has no
      defined behaviour; the model answers [Undefined]. *)

From Stdlib Require Import Strings.Ascii Strings.String.
From Stdlib Require Import ZArith Lia Strings.Byte.
From stdpp Require Import base numbers list.

Open Scope Z_scope.

(** ** Outcomes *)

(** The three [assert]s of the header. *)
Inductive assertion : Set :=
| array_sizes_not_empty   (* CreateInternal: assert(!array_sizes.empty()) *)
| array_sizes_empty       (* CreateInternal: assert(array_sizes.empty())  *)
| array_index_in_bounds.  (* __name__void__ptr__: assert(array_index >= 0 && array_index < array_elems) *)

Inductive outcome (A : Type) : Type :=
| Ok (a : A)
| AssertionFailed (s : assertion)
| Undefined.

Arguments Ok {A} a.
Arguments AssertionFailed {A} s.
Arguments Undefined {A}.

Definition bind {A B} (r : outcome A) (k : A -> outcome B) : outcome B :=
  match r with
  | Ok a => k a
  | AssertionFailed s => AssertionFailed s
  | Undefined => Undefined
  end.

(** The error kinds of the specification, read off the failed assertion. *)
Definition LengthMismatch {A} (r : outcome A) : Prop :=
  r = AssertionFailed array_sizes_not_empty \/ r = AssertionFailed array_sizes_empty.

Definition OutOfRange {A} (r : outcome A) : Prop :=
  r = AssertionFailed array_index_in_bounds.

(** ** The data model *)

(** [class VarstructInternal]. *)
Record VarstructInternal : Type := mkInternal {
  arrays_ : list bool;
  offsets_ : list Z
}.

(** [class VarstructMember]: the index of the member in both vectors. *)
Record VarstructMember : Type := mkMember { index : nat }.

(** The constructor [VarstructMember(size, is_array, varstruct)]. *)
Definition VarstructMember_new (size : Z) (is_array : bool)
    (varstruct : VarstructInternal) : VarstructMember * VarstructInternal :=
  (mkMember (length (offsets_ varstruct)),
   mkInternal (arrays_ varstruct ++ [is_array]) (offsets_ varstruct ++ [size])).

(** One [VARSTRUCT_SCALAR(decl_type, name)] or [VARSTRUCT_ARRAY(decl_type, name)]
    line of a structure definition: [sizeof(decl_type)] and the macro used. *)
Record FieldDecl : Type := mkDecl {
  decl_sizeof : Z;
  decl_array : bool
}.

(** What the macros generate for one declaration: the member object and the
    two constants the accessors close over. *)
Record Field : Type := mkField {
  member_ : VarstructMember;
  sizeof_decl : Z;
  is_array : bool
}.

(** Default construction of the generated class: the member initialisers run
    in declaration order, each pushing onto the two vectors. *)
Fixpoint construct (decls : list FieldDecl) (varstruct : VarstructInternal)
    : list Field * VarstructInternal :=
  match decls with
  | [] => ([], varstruct)
  | d :: rest =>
      let '(m, varstruct') :=
        VarstructMember_new (decl_sizeof d) (decl_array d) varstruct in
      let '(fs, varstruct'') := construct rest varstruct' in
      (mkField m (decl_sizeof d) (decl_array d) :: fs, varstruct'')
  end.

Definition fields (decls : list FieldDecl) : list Field :=
  fst (construct decls (mkInternal [] [])).

(** The three instantiations of the pointer parameter. *)
Inductive PtrType : Set := VoidPtr | ConstVoidPtr | NoPtr.

(** [IsNoPtr<PtrType>::value]. *)
Definition IsNoPtr (P : PtrType) : bool :=
  match P with NoPtr => true | _ => false end.

(** [std::is_const<std::remove_pointer<PtrType>::type>::value]. *)
Definition is_const (P : PtrType) : bool :=
  match P with ConstVoidPtr => true | _ => false end.

(** A value of the pointer type: an address, or nothing for the empty class. *)
Definition ptr_value (P : PtrType) : Type :=
  match P with NoPtr => unit | _ => Z end.

(** [class Varstruct<CrtpTemplate, PtrType>]. *)
Record Varstruct (P : PtrType) : Type := mkVarstruct {
  internal : VarstructInternal;
  ptr_ : ptr_value P
}.

Arguments mkVarstruct {P} internal ptr_.
Arguments internal {P} v.
Arguments ptr_ {P} v.

(** [size_bytes()] and [num_members()]. *)
Definition size_bytes {P} (v : Varstruct P) : Z :=
  default 0 (last (offsets_ (internal v))).

Definition num_members {P} (v : Varstruct P) : nat :=
  length (offsets_ (internal v)).

Section Width.

(** The width of [std::size_t] in bits. *)
Variable w : positive.

Definition modulus : Z := 2 ^ Z.pos w.

Definition wrap (x : Z) : Z := x mod modulus.

(** ** CreateInternal *)

(** First loop, from position [i] with [n] positions to go:
    [if (arrays_[i]) { assert(!array_sizes.empty());
                       offsets_[i] *= array_sizes.front();
                       array_sizes.pop_front(); }].
    Returns the vector and what is left of the deque. *)
Fixpoint scale_arrays (n i : nat) (arrays : list bool) (offsets : list Z)
    (array_sizes : list Z) : outcome (list Z * list Z) :=
  match n with
  | O => Ok (offsets, array_sizes)
  | S n' =>
      if (arrays !!! i : bool) then
        match array_sizes with
        | [] => AssertionFailed array_sizes_not_empty
        | front :: popped =>
            scale_arrays n' (S i) arrays
              (<[i := wrap (offsets !!! i * front)]> offsets) popped
        end
      else scale_arrays n' (S i) arrays offsets array_sizes
  end.

(** Second loop, from position [i] with [n] positions to go:
    [total += offsets_[i]; offsets_[i] = total;]. *)
Fixpoint carry_add (n i : nat) (total : Z) (offsets : list Z) : list Z :=
  match n with
  | O => offsets
  | S n' =>
      let total' := wrap (total + offsets !!! i) in
      carry_add n' (S i) total' (<[i := total']> offsets)
  end.

Definition CreateInternal (P : PtrType) (decls : list FieldDecl)
    (ptr : ptr_value P) (array_sizes : list Z) : outcome (Varstruct P) :=
  let varstruct := snd (construct decls (mkInternal [] [])) in
  let n := length (offsets_ varstruct) in
  bind (scale_arrays n 0 (arrays_ varstruct) (offsets_ varstruct) array_sizes)
    (fun '(offsets, array_sizes') =>
       match array_sizes' with
       | [] => Ok (mkVarstruct (mkInternal [] (carry_add n 0 0 offsets)) ptr)
       | _ :: _ => AssertionFailed array_sizes_empty
       end).

(** The three [Create] overloads. *)
Definition Create_mutable (decls : list FieldDecl) (ptr : Z) (array_sizes : list Z)
    : outcome (Varstruct VoidPtr) :=
  CreateInternal VoidPtr decls ptr array_sizes.

Definition Create_const (decls : list FieldDecl) (ptr : Z) (array_sizes : list Z)
    : outcome (Varstruct ConstVoidPtr) :=
  CreateInternal ConstVoidPtr decls ptr array_sizes.

Definition Create_offsets (decls : list FieldDecl) (array_sizes : list Z)
    : outcome (Varstruct NoPtr) :=
  CreateInternal NoPtr decls tt array_sizes.

(** ** Queries generated by the macros *)

(** [name##_offset()] of [VARSTRUCT_DEF_COMMON]. *)
Definition name_offset {P} (f : Field) (v : Varstruct P) : Z :=
  let index := index (member_ f) in
  if (index =? 0)%nat then 0 else offsets_ (internal v) !!! (index - 1)%nat.

(** [name##_size()]: the static [sizeof(decl_type)] for a scalar, the
    difference of two offsets, in [size_t] arithmetic, for an array. *)
Definition name_size {P} (f : Field) (v : Varstruct P) : Z :=
  if is_array f then
    let index := index (member_ f) in
    if (index =? 0)%nat then offsets_ (internal v) !!! index
    else wrap (offsets_ (internal v) !!! index
               - offsets_ (internal v) !!! (index - 1)%nat)
  else sizeof_decl f.

(** ** Memory *)

(** The caller's buffer: the address of its first byte and its bytes. *)
Record buffer : Type := mkBuffer {
  base : Z;
  bytes : list byte
}.

Definition inside (m : buffer) (address n : Z) : bool :=
  (base m <=? address) && (address + n <=? base m + Z.of_nat (length (bytes m))).

(** [std::memcpy(&tmp, src, n)]: the [n] bytes at [src]. *)
Definition memcpy_from (m : buffer) (src n : Z) : outcome (list byte) :=
  if inside m src n
  then Ok (take (Z.to_nat n) (drop (Z.to_nat (src - base m)) (bytes m)))
  else Undefined.

(** [std::memcpy(dst, &new_value, n)]: [new_value] is an object of [n] bytes. *)
Definition memcpy_to (m : buffer) (dst : Z) (new_value : list byte) (n : Z)
    : outcome buffer :=
  if inside m dst n && (Z.of_nat (length new_value) =? n)
  then Ok (mkBuffer (base m)
             (take (Z.to_nat (dst - base m)) (bytes m) ++ new_value
              ++ drop (Z.to_nat (dst - base m + n)) (bytes m)))
  else Undefined.

(** ** Accessors *)

(** The [std::enable_if] conditions of the generated methods. *)
Definition read_enabled (P : PtrType) : bool := negb (IsNoPtr P).

Definition write_enabled (P : PtrType) : bool :=
  negb (IsNoPtr P) && negb (is_const P).

(** [static_cast<CharPtrType<PtrType>::type>(this->ptr_)]; the instantiation
    with [NoPtr] does not exist. *)
Definition char_ptr (P : PtrType) : read_enabled P = true -> ptr_value P -> Z :=
  match P with
  | VoidPtr => fun _ p => p
  | ConstVoidPtr => fun _ p => p
  | NoPtr => fun _ _ => 0
  end.

Definition write_enabled_read {P : PtrType} :
    write_enabled P = true -> read_enabled P = true :=
  match P with
  | VoidPtr => fun _ => eq_refl
  | ConstVoidPtr => fun _ => eq_refl
  | NoPtr => fun H => H
  end.

(** [__name__void__ptr__<bounds_check>(array_index)]. *)
Definition void_ptr {P} (enabled : read_enabled P = true) (bounds_check : bool)
    (f : Field) (v : Varstruct P) (array_index : Z) : outcome Z :=
  let address :=
    char_ptr P enabled (ptr_ v) + name_offset f v
    + wrap (array_index * sizeof_decl f) in
  if bounds_check then
    let array_elems := name_size f v / sizeof_decl f in
    if (0 <=? array_index) && (array_index <? array_elems)
    then Ok address
    else AssertionFailed array_index_in_bounds
  else Ok address.

(** The [bounds_check] hard-wired into the scalar accessors. *)
Definition kBoundsCheck : bool := false.

(** A template argument that may be left out at the call site. *)
Definition template_arg (default : bool) (given : option bool) : bool :=
  match given with
  | Some b => b
  | None => default
  end.

(** [name()] of [VARSTRUCT_SCALAR_INTERNAL]. *)
Definition scalar_name {P} (enabled : read_enabled P = true) (f : Field)
    (v : Varstruct P) (m : buffer) : outcome (list byte) :=
  bind (void_ptr enabled kBoundsCheck f v 0)
       (fun src => memcpy_from m src (sizeof_decl f)).

(** [set_name(new_value)] of [VARSTRUCT_SCALAR_INTERNAL]. *)
Definition scalar_set_name {P} (enabled : write_enabled P = true) (f : Field)
    (v : Varstruct P) (new_value : list byte) (m : buffer) : outcome buffer :=
  bind (void_ptr (write_enabled_read enabled) kBoundsCheck f v 0)
       (fun dst => memcpy_to m dst new_value (sizeof_decl f)).

(** [name<bounds_check = true>(array_index)] of [VARSTRUCT_ARRAY_INTERNAL]. *)
Definition array_name {P} (enabled : read_enabled P = true)
    (bounds_check : option bool) (f : Field) (v : Varstruct P)
    (array_index : Z) (m : buffer) : outcome (list byte) :=
  bind (void_ptr enabled (template_arg true bounds_check) f v array_index)
       (fun src => memcpy_from m src (sizeof_decl f)).

(** [set_name<bounds_check = true>(array_index, new_value)] of
    [VARSTRUCT_ARRAY_INTERNAL]. *)
Definition array_set_name {P} (enabled : write_enabled P = true)
    (bounds_check : option bool) (f : Field) (v : Varstruct P)
    (array_index : Z) (new_value : list byte) (m : buffer) : outcome buffer :=
  bind (void_ptr (write_enabled_read enabled) (template_arg true bounds_check)
          f v array_index)
       (fun dst => memcpy_to m dst new_value (sizeof_decl f)).

End Width.

(** ** The resolver in the words of the specification *)

(** Number of array-flagged fields of a schema. *)
Definition num_arrays (decls : list FieldDecl) : nat :=
  length (filter (fun d => decl_array d = true) decls).

(** Step 1, in unbounded integers: [element_size] for a scalar,
    [element_size * next(array_lengths)] for an array. *)
Fixpoint raw_size (decls : list FieldDecl) (array_lengths : list Z) : list Z :=
  match decls with
  | [] => []
  | d :: rest =>
      if decl_array d then
        match array_lengths with
        | [] => []
        | len :: lens => decl_sizeof d * len :: raw_size rest lens
        end
      else decl_sizeof d :: raw_size rest array_lengths
  end.

Definition sumZ (l : list Z) : Z := foldr Z.add 0 l.

(** The sum of the scalar fields' element sizes. *)
Definition scalar_sizes (decls : list FieldDecl) : Z :=
  sumZ (map decl_sizeof (filter (fun d => decl_array d = false) decls)).

(** The sum over the array fields of [element_size_i * length_i]. *)
Definition array_sizes_total (decls : list FieldDecl) (array_lengths : list Z) : Z :=
  sumZ (zip_with (fun d len => decl_sizeof d * len)
          (filter (fun d => decl_array d = true) decls) array_lengths).

(** The field generated for declaration number [i]. *)
Definition field_of (i : nat) (d : FieldDecl) : Field :=
  mkField (mkMember i) (decl_sizeof d) (decl_array d).

(** Sizes and lengths are values of [std::size_t]; [sizeof] is never 0. *)
Definition size_t (w : positive) (x : Z) : Prop := 0 <= x < modulus w.

Definition well_formed (w : positive) (decls : list FieldDecl) : Prop :=
  Forall (fun d => 0 < decl_sizeof d < modulus w) decls.

(** The first loop, by recursion on the two vectors. *)
Fixpoint scaled (w : positive) (decls : list FieldDecl) (array_sizes : list Z)
    : outcome (list Z * list Z) :=
  match decls with
  | [] => Ok ([], array_sizes)
  | d :: rest =>
      if decl_array d then
        match array_sizes with
        | [] => AssertionFailed array_sizes_not_empty
        | front :: popped =>
            bind (scaled w rest popped)
              (fun '(os, remaining) => Ok (wrap w (decl_sizeof d * front) :: os, remaining))
        end
      else
        bind (scaled w rest array_sizes)
          (fun '(os, remaining) => Ok (decl_sizeof d :: os, remaining))
  end.

(** The second loop, by recursion on the vector. *)
Fixpoint prefix_sums (w : positive) (total : Z) (sizes : list Z) : list Z :=
  match sizes with
  | [] => []
  | s :: rest =>
      let total' := wrap w (total + s) in
      total' :: prefix_sums w total' rest
  end.

(** What the first loop leaves in [offsets_] when the lengths suffice: arrays
    multiplied in [size_t], scalars untouched. *)
Definition scaled_sizes (w : positive) (decls : list FieldDecl) (lens : list Z)
    : list Z :=
  zip_with (fun d r => if decl_array d then wrap w r else r)
    decls (raw_size decls lens).

(** The vector [CreateInternal] leaves in [offsets_]. *)
Definition resolved_offsets (w : positive) (decls : list FieldDecl)
    (lens : list Z) : list Z :=
  prefix_sums w 0 (scaled_sizes w decls lens).

(** The layout fits: no size is negative and the exact total is a [size_t]
    value, so that no addition or multiplication of the resolver wraps. *)
Definition fits (w : positive) (decls : list FieldDecl) (lens : list Z) : Prop :=
  Forall (fun r => 0 <= r) (raw_size decls lens) /\
  sumZ (raw_size decls lens) < modulus w.

(** The index of an access is in range: below the element count of an array
    field; a scalar has the one element 0. *)
Definition valid_index (w : positive) {P} (f : Field) (v : Varstruct P)
    (array_index : Z) : Prop :=
  if is_array f then 0 <= array_index < name_size w f v / sizeof_decl f
  else array_index = 0.

(** The position, counted from the base pointer, of element [array_index] of
    a field: [start(f) + index * element_size(f)]. *)
Definition element_offset {P} (f : Field) (v : Varstruct P) (array_index : Z) : Z :=
  name_offset f v + array_index * sizeof_decl f.

(** The buffer is sufficient for a layout: it holds the sum of the resolved
    sizes, and it is an object of a [w]-bit address space. *)
Definition sufficient (w : positive) (decls : list FieldDecl) (lens : list Z)
    (m : buffer) : Prop :=
  sumZ (raw_size decls lens) <= Z.of_nat (length (bytes m)) /\
  Z.of_nat (length (bytes m)) < modulus w.

(** Two states of the buffer agree outside the [n] bytes at position [lo]
    (counted from the base pointer). *)
Definition same_outside (m m' : buffer) (lo n : Z) : Prop :=
  base m' = base m /\
  length (bytes m') = length (bytes m) /\
  forall k : nat,
    Z.of_nat k < lo \/ lo + n <= Z.of_nat k -> bytes m' !! k = bytes m !! k.

(** Every read of a field other than field [i], and of an element of field
    [i] other than [array_index], returns in [m'] what it returns in [m]. *)
Definition same_reads (w : positive) (decls : list FieldDecl)
    (v : Varstruct VoidPtr) (i : nat) (array_index : Z) (m m' : buffer) : Prop :=
  forall j g,
    fields decls !! j = Some g ->
    (is_array g = false -> j <> i ->
     scalar_name w (P := VoidPtr) eq_refl g v m'
     = scalar_name w (P := VoidPtr) eq_refl g v m) /\
    (is_array g = true ->
     forall bounds_check array_index',
       0 <= array_index' < name_size w g v / sizeof_decl g ->
       j <> i \/ array_index' <> array_index ->
       array_name w (P := VoidPtr) eq_refl bounds_check g v array_index' m'
       = array_name w (P := VoidPtr) eq_refl bounds_check g v array_index' m).


(** ** Field names *)

(** A [const char*] into a string literal: the characters from the pointer
    on; the terminating NUL is the end of the [string]. *)
Definition deref (p : string) : ascii :=
  match p with
  | EmptyString => zero
  | String c _ => c
  end.

(** A [char] as a condition: not NUL. *)
Definition nonzero (c : ascii) : bool := negb (Ascii.eqb c zero).

(** [EqualStrings(a, b)]: when both [*a] and [*b] are not NUL, the result is
    [*a == *b && EqualStrings(a + 1, b + 1)]; otherwise it is [!*a && !*b].
    At the end of [a] the character [*a] is NUL and the first branch is not
    taken; the recursion follows [a + 1]. *)
Fixpoint EqualStrings (a b : string) : bool :=
  match a with
  | EmptyString => negb (nonzero (deref a)) && negb (nonzero (deref b))
  | String _ a1 =>
      if nonzero (deref a) && nonzero (deref b)
      then Ascii.eqb (deref a) (deref b)
           && EqualStrings a1 (match b with EmptyString => b | String _ b1 => b1 end)
      else negb (nonzero (deref a)) && negb (nonzero (deref b))
  end.

(** The C string a pointer denotes: the characters before the first NUL. *)
Fixpoint c_str (p : string) : string :=
  match p with
  | EmptyString => EmptyString
  | String c rest => if nonzero c then String c (c_str rest) else EmptyString
  end.

(** The two name [static_assert]s of [VARSTRUCT_DEF_COMMON] on [#name]. *)
Definition name_allowed (name : string) : bool :=
  negb (EqualStrings name "size_bytes") && negb (EqualStrings name "num_members").

(** ** The accessor pair of a field *)

(** [set_##name] as generated for the field: by the scalar macro, without an
    index, or by the array macro. *)
Definition field_set (w : positive) (bounds_check : option bool) (f : Field)
    (v : Varstruct VoidPtr) (array_index : Z) (new_value : list byte)
    (m : buffer) : outcome buffer :=
  if is_array f
  then array_set_name w (P := VoidPtr) eq_refl bounds_check f v array_index
         new_value m
  else scalar_set_name w (P := VoidPtr) eq_refl f v new_value m.

(** [name] as generated for the field, likewise. *)
Definition field_get (w : positive) (bounds_check : option bool) (f : Field)
    (v : Varstruct VoidPtr) (array_index : Z) (m : buffer)
    : outcome (list byte) :=
  if is_array f
  then array_name w (P := VoidPtr) eq_refl bounds_check f v array_index m
  else scalar_name w (P := VoidPtr) eq_refl f v m.

(** The prefix sums of the second loop do not wrap: the sum of the sizes the
    first loop leaves, each array product already reduced modulo [2^w], is a
    [size_t] value. *)
Definition no_wrap (w : positive) (decls : list FieldDecl) (lens : list Z)
    : Prop :=
  sumZ (scaled_sizes w decls lens) < modulus w.

(** Closes the side conditions of a statement at a concrete input. *)
Ltac by_computation :=
  repeat match goal with
         | |- _ /\ _ => split
         | |- Forall _ (_ :: _) => apply List.Forall_cons
         | |- Forall _ [] => apply List.Forall_nil
         | |- well_formed _ _ => unfold well_formed
         | |- size_t _ _ => unfold size_t
         | |- sufficient _ _ _ _ => unfold sufficient
         | |- _ <= _ => vm_compute; discriminate
         | |- _ < _ => reflexivity
         end.

(** * Properties *)

(** ** Arithmetic of [wrap] *)

Lemma modulus_pos w : 0 < modulus w.
Proof. unfold modulus. apply Z.pow_pos_nonneg; lia. Qed.

Lemma modulus_gt_1 w : 1 < modulus w.
Proof. unfold modulus. apply Z.pow_gt_1; lia. Qed.

Lemma wrap_range w x : 0 <= wrap w x < modulus w.
Proof. apply Z.mod_pos_bound, modulus_pos. Qed.

Lemma wrap_small w x : 0 <= x < modulus w -> wrap w x = x.
Proof. apply Z.mod_small. Qed.

Lemma wrap_wrap w x : wrap w (wrap w x) = wrap w x.
Proof. unfold wrap. apply Z.mod_mod. pose proof (modulus_pos w). lia. Qed.

Lemma wrap_add_l w x y : wrap w (wrap w x + y) = wrap w (x + y).
Proof. unfold wrap. apply Zplus_mod_idemp_l. Qed.

Lemma wrap_add_r w x y : wrap w (x + wrap w y) = wrap w (x + y).
Proof. unfold wrap. apply Zplus_mod_idemp_r. Qed.

Lemma wrap_sub_l w x y : wrap w (wrap w x - y) = wrap w (x - y).
Proof. unfold wrap. apply Zminus_mod_idemp_l. Qed.

Lemma wrap_sub_r w x y : wrap w (x - wrap w y) = wrap w (x - y).
Proof. unfold wrap. apply Zminus_mod_idemp_r. Qed.

(** ** Construction *)

Lemma construct_snd decls vs :
  snd (construct decls vs)
  = mkInternal (arrays_ vs ++ map decl_array decls)
               (offsets_ vs ++ map decl_sizeof decls).
Proof.
  revert vs. induction decls as [|d rest IH]; intros vs; simpl.
  - rewrite !app_nil_r. by destruct vs.
  - specialize (IH (mkInternal (arrays_ vs ++ [decl_array d])
                               (offsets_ vs ++ [decl_sizeof d]))).
    destruct (construct rest _) as [fs vs'']. simpl in *.
    rewrite IH. simpl. by rewrite <- !app_assoc.
Qed.

Lemma construct_fst decls vs :
  fst (construct decls vs)
  = imap (fun i d => field_of (length (offsets_ vs) + i) d) decls.
Proof.
  revert vs. induction decls as [|d rest IH]; intros vs; simpl; [done|].
  specialize (IH (mkInternal (arrays_ vs ++ [decl_array d])
                             (offsets_ vs ++ [decl_sizeof d]))).
  destruct (construct rest _) as [fs vs'']. simpl in *.
  rewrite IH. unfold field_of at 2. rewrite Nat.add_0_r. f_equal.
  apply imap_ext. intros i x _. simpl. rewrite length_app. simpl.
  f_equal. lia.
Qed.

Lemma fields_lookup decls i :
  fields decls !! i = field_of i <$> decls !! i.
Proof.
  unfold fields. rewrite construct_fst. simpl. by rewrite list_lookup_imap.
Qed.

(** ** The two loops *)

Lemma insert_middle {A} (l1 l2 : list A) x y :
  <[length l1 := y]> (l1 ++ x :: l2) = l1 ++ y :: l2.
Proof. rewrite insert_app_r_alt by lia. by rewrite Nat.sub_diag. Qed.

Lemma scaled_length w decls lens os remaining :
  scaled w decls lens = Ok (os, remaining) -> length os = length decls.
Proof.
  revert lens os remaining.
  induction decls as [|d rest IH]; intros lens os remaining; simpl.
  - by intros [= <- _].
  - destruct (decl_array d).
    + destruct lens as [|front popped]; [done|].
      destruct (scaled w rest popped) as [[os' rem']| |] eqn:E; simpl; try done.
      intros [= <- _]. simpl. f_equal. eauto.
    + destruct (scaled w rest lens) as [[os' rem']| |] eqn:E; simpl; try done.
      intros [= <- _]. simpl. f_equal. eauto.
Qed.

Lemma scale_arrays_scaled w decls : forall adone done lens,
  length adone = length done ->
  scale_arrays w (length decls) (length done)
    (adone ++ map decl_array decls) (done ++ map decl_sizeof decls) lens
  = bind (scaled w decls lens) (fun '(os, remaining) => Ok (done ++ os, remaining)).
Proof.
  induction decls as [|d rest IH]; intros adone done lens Hlen; simpl.
  - by rewrite app_nil_r.
  - rewrite <- Hlen at 1. rewrite list_lookup_total_middle by done.
    rewrite list_lookup_total_middle by done.
    assert (Hstep : forall x lens',
      scale_arrays w (length rest) (S (length done))
        (adone ++ decl_array d :: map decl_array rest)
        (done ++ x :: map decl_sizeof rest) lens'
      = bind (scaled w rest lens')
          (fun '(os, remaining) => Ok (done ++ x :: os, remaining))).
    { intros x lens'.
      specialize (IH (adone ++ [decl_array d]) (done ++ [x]) lens').
      rewrite !length_app in IH. simpl in IH.
      rewrite !Nat.add_1_r, <- !app_assoc in IH. simpl in IH.
      rewrite IH by lia.
      destruct (scaled w rest lens') as [[os rem]| |]; simpl; try done.
      by rewrite <- app_assoc. }
    destruct (decl_array d).
    + destruct lens as [|front popped]; [done|].
      rewrite insert_middle. rewrite Hstep.
      by destruct (scaled w rest popped) as [[os rem]| |].
    + rewrite Hstep. by destruct (scaled w rest lens) as [[os rem]| |].
Qed.

Lemma carry_add_prefix_sums w todo : forall done total,
  carry_add w (length todo) (length done) total (done ++ todo)
  = done ++ prefix_sums w total todo.
Proof.
  induction todo as [|s rest IH]; intros done total; simpl.
  - done.
  - rewrite list_lookup_total_middle by done.
    rewrite insert_middle.
    specialize (IH (done ++ [wrap w (total + s)]) (wrap w (total + s))).
    rewrite length_app, Nat.add_1_r, <- !app_assoc in IH. simpl in IH.
    exact IH.
Qed.

(** [CreateInternal] is step 1, the count check and the prefix sum. *)
Lemma CreateInternal_resolve w P decls ptr lens :
  CreateInternal w P decls ptr lens
  = bind (scaled w decls lens)
      (fun '(raw, remaining) =>
         match remaining with
         | [] => Ok (mkVarstruct (mkInternal [] (prefix_sums w 0 raw)) ptr)
         | _ :: _ => AssertionFailed array_sizes_empty
         end).
Proof.
  unfold CreateInternal. rewrite construct_snd. simpl.
  rewrite length_map.
  pose proof (scale_arrays_scaled w decls [] [] lens eq_refl) as Hloop.
  simpl in Hloop. rewrite Hloop. clear Hloop.
  destruct (scaled w decls lens) as [[raw rem]| |] eqn:E; simpl; try done.
  destruct rem; [|done].
  apply scaled_length in E. rewrite <- E.
  exact (f_equal (fun os => Ok (mkVarstruct (mkInternal [] os) ptr))
           (carry_add_prefix_sums w raw [] 0)).
Qed.

(** ** Step 1: what the first loop leaves in [offsets_] *)

Lemma num_arrays_cons d rest :
  num_arrays (d :: rest)
  = if decl_array d then S (num_arrays rest) else num_arrays rest.
Proof.
  unfold num_arrays. rewrite filter_cons.
  destruct (decl_array d); by case_decide.
Qed.

Lemma scaled_spec w decls : forall lens,
  scaled w decls lens
  = if decide (num_arrays decls <= length lens)%nat
    then Ok (scaled_sizes w decls lens, drop (num_arrays decls) lens)
    else AssertionFailed array_sizes_not_empty.
Proof.
  induction decls as [|d rest IH]; intros lens.
  - change (num_arrays []) with 0%nat. rewrite decide_True by lia. done.
  - rewrite num_arrays_cons. unfold scaled_sizes.
    cbn [scaled raw_size]. destruct (decl_array d) eqn:Ed.
    + destruct lens as [|front popped].
      * rewrite decide_False by (cbn [length]; lia). done.
      * rewrite IH. cbn [length].
        destruct (decide (num_arrays rest <= length popped)%nat).
        -- rewrite decide_True by lia. cbn. by rewrite Ed.
        -- rewrite decide_False by lia. done.
    + rewrite IH.
      destruct (decide (num_arrays rest <= length lens)%nat); [|done].
      cbn. by rewrite Ed.
Qed.

Lemma raw_size_length decls : forall lens,
  (num_arrays decls <= length lens)%nat ->
  length (raw_size decls lens) = length decls.
Proof.
  induction decls as [|d rest IH]; intros lens; [done|].
  rewrite num_arrays_cons. simpl. destruct (decl_array d).
  - destruct lens as [|len lens]; simpl; [lia|]. intros. f_equal. apply IH. lia.
  - simpl. intros. f_equal. by apply IH.
Qed.

Lemma scaled_sizes_length w decls lens :
  (num_arrays decls <= length lens)%nat ->
  length (scaled_sizes w decls lens) = length decls.
Proof.
  intros H. unfold scaled_sizes.
  rewrite length_zip_with, raw_size_length by done. lia.
Qed.

Lemma scaled_sizes_lookup w decls lens i d :
  (num_arrays decls <= length lens)%nat ->
  decls !! i = Some d ->
  scaled_sizes w decls lens !!! i
  = if decl_array d then wrap w (raw_size decls lens !!! i)
    else raw_size decls lens !!! i.
Proof.
  intros Hn Hd. unfold scaled_sizes.
  assert (Hi : (i < length (raw_size decls lens))%nat).
  { rewrite raw_size_length by done. by eapply lookup_lt_Some. }
  apply list_lookup_lookup_total_lt in Hi.
  apply list_lookup_total_correct.
  rewrite lookup_zip_with, Hd. simpl. by rewrite Hi.
Qed.

(** A scalar keeps [sizeof(decl_type)]. *)
Lemma raw_size_scalar decls : forall lens i d,
  (num_arrays decls <= length lens)%nat ->
  decls !! i = Some d -> decl_array d = false ->
  raw_size decls lens !!! i = decl_sizeof d.
Proof.
  induction decls as [|d0 rest IH]; intros lens i d; [done|].
  rewrite num_arrays_cons. simpl. destruct i as [|i]; simpl.
  - intros _ [= ->] ->. done.
  - destruct (decl_array d0).
    + destruct lens as [|len lens]; simpl; [lia|]. intros. apply IH; [lia|done..].
    + intros. by apply IH.
Qed.

(** The array lengths consumed before field [i], and the product an array
    field is given. *)
Lemma raw_size_array decls : forall lens i d,
  (num_arrays decls <= length lens)%nat ->
  decls !! i = Some d -> decl_array d = true ->
  raw_size decls lens !!! i
  = decl_sizeof d * lens !!! num_arrays (take i decls).
Proof.
  induction decls as [|d0 rest IH]; intros lens i d; [done|].
  rewrite num_arrays_cons. simpl. destruct i as [|i]; simpl.
  - intros Hn [= ->] Hd. rewrite Hd in *.
    destruct lens as [|len lens]; simpl in *; [lia|]. done.
  - rewrite num_arrays_cons. destruct (decl_array d0).
    + destruct lens as [|len lens]; simpl; [lia|]. intros.
      rewrite IH with (d := d) by (done || lia). done.
    + intros. by apply IH.
Qed.

(** ** Step 3: the prefix sums *)

Lemma sumZ_app l1 l2 : sumZ (l1 ++ l2) = sumZ l1 + sumZ l2.
Proof. unfold sumZ. induction l1; simpl; lia. Qed.

Lemma sumZ_take_S (l : list Z) i :
  (i < length l)%nat -> sumZ (take (S i) l) = sumZ (take i l) + l !!! i.
Proof.
  intros Hi. apply list_lookup_lookup_total_lt in Hi.
  rewrite (take_S_r _ _ _ Hi), sumZ_app. unfold sumZ. simpl. lia.
Qed.

Lemma sumZ_nonneg l : Forall (fun x => 0 <= x) l -> 0 <= sumZ l.
Proof. unfold sumZ. induction 1; simpl; lia. Qed.

Lemma sumZ_take_le (l : list Z) i :
  Forall (fun x => 0 <= x) l -> sumZ (take i l) <= sumZ l.
Proof.
  intros H. rewrite <- (take_drop i l) at 2. rewrite sumZ_app.
  pose proof (sumZ_nonneg (drop i l) (Forall_drop _ _ _ H)). lia.
Qed.

Lemma prefix_sums_length w os : forall t, length (prefix_sums w t os) = length os.
Proof. induction os; intros; simpl; auto. Qed.

Lemma prefix_sums_lookup w os : forall t i,
  (i < length os)%nat ->
  prefix_sums w t os !!! i = wrap w (t + sumZ (take (S i) os)).
Proof.
  induction os as [|s rest IH]; intros t i Hi; simpl in *; [lia|].
  destruct i as [|i].
  - rewrite take_0. unfold sumZ. simpl. f_equal. lia.
  - rewrite lookup_total_cons_ne_0 by done. simpl.
    rewrite IH by lia. rewrite wrap_add_l. unfold sumZ. simpl. f_equal. lia.
Qed.

Lemma wrap_sumZ_zip_with w (f : FieldDecl -> Z -> Z) ds :
  (forall d r, wrap w (f d r) = wrap w r) ->
  forall rs k t, length ds = length rs ->
  wrap w (t + sumZ (take k (zip_with f ds rs))) = wrap w (t + sumZ (take k rs)).
Proof.
  intros Hf. induction ds as [|d ds IH]; intros [|r rs] k t Hlen;
    simpl in *; try done.
  destruct k as [|k]; simpl; [done|]. unfold sumZ. simpl. fold (sumZ).
  fold (sumZ (take k (zip_with f ds rs))). fold (sumZ (take k rs)).
  rewrite !Z.add_assoc.
  rewrite IH by lia.
  rewrite <- (wrap_add_l w (t + f d r)), <- (wrap_add_r w t (f d r)), Hf.
  by rewrite wrap_add_r, wrap_add_l.
Qed.

Lemma CreateInternal_ok w P decls ptr lens :
  length lens = num_arrays decls ->
  CreateInternal w P decls ptr lens
  = Ok (mkVarstruct (mkInternal [] (resolved_offsets w decls lens)) ptr).
Proof.
  intros Hlen. rewrite CreateInternal_resolve, scaled_spec.
  rewrite decide_True by lia. simpl.
  by rewrite <- Hlen, drop_all.
Qed.

Lemma resolved_offsets_length w decls lens :
  length lens = num_arrays decls ->
  length (resolved_offsets w decls lens) = length decls.
Proof.
  intros. unfold resolved_offsets.
  rewrite prefix_sums_length, scaled_sizes_length; [done|lia].
Qed.

(** Every offset is the sum of the sizes up to its field, modulo [2^w]. *)
Lemma resolved_offsets_lookup w decls lens i :
  length lens = num_arrays decls ->
  (i < length decls)%nat ->
  resolved_offsets w decls lens !!! i
  = wrap w (sumZ (take (S i) (raw_size decls lens))).
Proof.
  intros Hlen Hi. unfold resolved_offsets.
  rewrite prefix_sums_lookup by (rewrite scaled_sizes_length; lia).
  unfold scaled_sizes. apply wrap_sumZ_zip_with.
  - intros d r. destruct (decl_array d); [apply wrap_wrap|done].
  - rewrite raw_size_length; [done|lia].
Qed.

(** ** Total size *)

Lemma sumZ_raw_size decls : forall lens,
  (num_arrays decls <= length lens)%nat ->
  sumZ (raw_size decls lens)
  = scalar_sizes decls + array_sizes_total decls lens.
Proof.
  unfold scalar_sizes, array_sizes_total.
  induction decls as [|d rest IH]; intros lens; [done|].
  rewrite num_arrays_cons, !filter_cons. simpl.
  destruct (decl_array d) eqn:Ed.
  - destruct (decide (true = false)) as [|_]; [done|].
    destruct (decide (true = true)) as [_|]; [|done].
    destruct lens as [|len lens]; simpl; [lia|]. intros Hn.
    unfold sumZ in *. simpl. rewrite IH by lia. lia.
  - destruct (decide (false = false)) as [_|]; [|done].
    destruct (decide (false = true)) as [|_]; [done|]. intros Hn.
    unfold sumZ in *. simpl. rewrite IH by lia. lia.
Qed.

Lemma size_bytes_resolved w P decls lens (ptr : ptr_value P) :
  length lens = num_arrays decls ->
  size_bytes (mkVarstruct (mkInternal [] (resolved_offsets w decls lens)) ptr)
  = wrap w (sumZ (raw_size decls lens)).
Proof.
  intros Hlen. unfold size_bytes. simpl.
  rewrite last_lookup, resolved_offsets_length by done.
  destruct decls as [|d rest].
  - destruct lens; [|done]. done.
  - simpl length. simpl pred.
    assert (Hi : (length rest < length (resolved_offsets w (d :: rest) lens))%nat).
    { rewrite resolved_offsets_length by done. simpl. lia. }
    rewrite (list_lookup_lookup_total_lt _ _ Hi). simpl.
    rewrite resolved_offsets_lookup by (done || simpl; lia).
    rewrite take_ge; [done|]. rewrite raw_size_length by lia. done.
Qed.

(** C1, as amended.  When the number of lengths is the number of array
    fields, [CreateInternal] succeeds and [size_bytes] is the sum of the scalar
    sizes plus the sum of [element_size_i * length_i] reduced modulo [2^w]; it
    is that sum itself when the sum is a [size_t] value, and it is 0 for a
    schema with no fields. *)
Theorem C1_total_size w P decls (ptr : ptr_value P) lens :
  length lens = num_arrays decls ->
  exists v,
    CreateInternal w P decls ptr lens = Ok v /\
    size_bytes v = wrap w (scalar_sizes decls + array_sizes_total decls lens) /\
    (0 <= scalar_sizes decls + array_sizes_total decls lens < modulus w ->
     size_bytes v = scalar_sizes decls + array_sizes_total decls lens) /\
    (decls = [] -> size_bytes v = 0).
Proof.
  intros Hlen. eexists. split; [by apply CreateInternal_ok|].
  rewrite size_bytes_resolved, sumZ_raw_size by (done || lia).
  split; [done|]. split.
  - apply wrap_small.
  - intros ->. destruct lens; done.
Qed.

Lemma C1_total_size_witness :
  exists v,
    CreateInternal 64 NoPtr [mkDecl 4 false; mkDecl 2 true; mkDecl 8 false] tt [3]
    = Ok v /\ size_bytes v = 18.
Proof.
  destruct (C1_total_size 64 NoPtr
              [mkDecl 4 false; mkDecl 2 true; mkDecl 8 false] tt [3] eq_refl)
    as (v & Hv & _ & Hexact & _).
  exists v. split; [exact Hv|].
  rewrite Hexact; [reflexivity|]. split; [vm_compute; discriminate|reflexivity].
Defined.

(** The claim as written fails when the exact sum does not fit in [size_t]:
    a 4-byte scalar and [2^61] elements of 8 bytes resolve to a total size of
    4, not [4 + 2^64]. *)
Lemma C1_counterexample :
  exists v,
    CreateInternal 64 NoPtr [mkDecl 4 false; mkDecl 8 true] tt [2 ^ 61] = Ok v /\
    size_bytes v = 4 /\
    scalar_sizes [mkDecl 4 false; mkDecl 8 true]
    + array_sizes_total [mkDecl 4 false; mkDecl 8 true] [2 ^ 61] = 4 + 2 ^ 64 /\
    size_bytes v <>
      scalar_sizes [mkDecl 4 false; mkDecl 8 true]
      + array_sizes_total [mkDecl 4 false; mkDecl 8 true] [2 ^ 61].
Proof.
  eexists. split; [reflexivity|]. split; [reflexivity|].
  split; [reflexivity|]. vm_compute. discriminate.
Qed.

(** ** Offsets and sizes of the fields of a resolved view *)

Section Resolved.

Variables (w : positive) (P : PtrType) (decls : list FieldDecl).
Variables (ptr : ptr_value P) (lens : list Z).
Hypothesis Hcount : length lens = num_arrays decls.

Local Abbreviation raw := (raw_size decls lens).
Local Abbreviation v :=
  (@mkVarstruct P (mkInternal [] (resolved_offsets w decls lens)) ptr).

Lemma name_offset_resolved i d :
  (i <= length decls)%nat ->
  name_offset (field_of i d) v = wrap w (sumZ (take i raw)).
Proof.
  intros Hi. unfold name_offset. simpl. destruct i as [|i]; simpl; [done|].
  rewrite Nat.sub_0_r, resolved_offsets_lookup by (done || lia). done.
Qed.

Lemma name_size_resolved i d :
  decls !! i = Some d ->
  name_size w (field_of i d) v = scaled_sizes w decls lens !!! i.
Proof.
  intros Hd. pose proof (lookup_lt_Some _ _ _ Hd) as Hi.
  assert (Hraw : (i < length raw)%nat).
  { rewrite raw_size_length; [done|lia]. }
  rewrite (scaled_sizes_lookup w decls lens i d) by (done || lia).
  unfold name_size. simpl. destruct (decl_array d) eqn:Ed.
  - destruct i as [|i]; simpl.
    + rewrite resolved_offsets_lookup by (done || lia).
      rewrite sumZ_take_S by done. rewrite take_0. done.
    + rewrite Nat.sub_0_r, !resolved_offsets_lookup by (done || lia).
      rewrite wrap_sub_l, wrap_sub_r.
      rewrite (sumZ_take_S raw (S i)) by done. f_equal. lia.
  - symmetry. by apply raw_size_scalar; [lia|..].
Qed.

Lemma name_size_range i d :
  decls !! i = Some d -> 0 < decl_sizeof d < modulus w ->
  0 <= name_size w (field_of i d) v < modulus w.
Proof.
  intros Hd Hsz. rewrite name_size_resolved by done.
  rewrite (scaled_sizes_lookup w decls lens i d) by (done || lia).
  destruct (decl_array d) eqn:Ed; [apply wrap_range|].
  rewrite raw_size_scalar with (d := d) by (done || lia). lia.
Qed.

(** The next field starts where this one ends, in [size_t] arithmetic. *)
Lemma next_offset_wrap i d d' :
  decls !! i = Some d ->
  name_offset (field_of (S i) d') v
  = wrap w (name_offset (field_of i d) v + name_size w (field_of i d) v).
Proof.
  intros Hd. pose proof (lookup_lt_Some _ _ _ Hd) as Hi.
  assert (Hraw : (i < length raw)%nat).
  { rewrite raw_size_length; [done|lia]. }
  rewrite !name_offset_resolved by lia.
  rewrite name_size_resolved by done.
  rewrite (scaled_sizes_lookup w decls lens i d) by (done || lia).
  rewrite sumZ_take_S by done.
  destruct (decl_array d).
  - by rewrite wrap_add_l, wrap_add_r.
  - by rewrite wrap_add_l.
Qed.

Section Fits.

Hypothesis Hfits : fits w decls lens.

Lemma prefix_exact i : wrap w (sumZ (take i raw)) = sumZ (take i raw).
Proof.
  destruct Hfits as [Hnn Hlt]. apply wrap_small. split.
  - apply sumZ_nonneg, Forall_take, Hnn.
  - pose proof (sumZ_take_le raw i Hnn). lia.
Qed.

Lemma raw_exact i : (i < length raw)%nat -> 0 <= raw !!! i < modulus w.
Proof.
  intros Hi. destruct Hfits as [Hnn Hlt].
  assert (H0 : 0 <= raw !!! i).
  { eapply (Forall_lookup_total_1 (fun r => 0 <= r)); done. }
  split; [done|].
  pose proof (sumZ_take_le raw (S i) Hnn) as Hle.
  rewrite sumZ_take_S in Hle by done.
  pose proof (sumZ_nonneg (take i raw) (Forall_take _ _ _ Hnn)).
  lia.
Qed.

Lemma name_offset_exact i d :
  (i <= length decls)%nat ->
  name_offset (field_of i d) v = sumZ (take i raw).
Proof. intros. rewrite name_offset_resolved by done. apply prefix_exact. Qed.

Lemma name_size_exact i d :
  decls !! i = Some d -> name_size w (field_of i d) v = raw !!! i.
Proof.
  intros Hd. pose proof (lookup_lt_Some _ _ _ Hd) as Hi.
  rewrite name_size_resolved by done.
  rewrite (scaled_sizes_lookup w decls lens i d) by (done || lia).
  destruct (decl_array d); [|done].
  apply wrap_small, raw_exact. rewrite raw_size_length; [done|lia].
Qed.

Lemma next_offset_exact i d d' :
  decls !! i = Some d ->
  name_offset (field_of (S i) d') v
  = name_offset (field_of i d) v + name_size w (field_of i d) v.
Proof.
  intros Hd. pose proof (lookup_lt_Some _ _ _ Hd) as Hi.
  rewrite !name_offset_exact by lia. rewrite name_size_exact by done.
  apply sumZ_take_S. rewrite raw_size_length; [done|lia].
Qed.

Lemma size_bytes_exact : size_bytes v = sumZ raw.
Proof.
  rewrite size_bytes_resolved by done.
  pose proof (prefix_exact (length raw)) as H.
  rewrite take_ge in H by lia. exact H.
Qed.

(** Every field ends at or before [size_bytes]. *)
Lemma field_end_le_size_bytes i d :
  decls !! i = Some d ->
  name_offset (field_of i d) v + name_size w (field_of i d) v <= size_bytes v.
Proof.
  intros Hd. pose proof (lookup_lt_Some _ _ _ Hd) as Hi.
  rewrite <- (next_offset_exact i d d) by done.
  rewrite name_offset_exact, size_bytes_exact by lia.
  apply sumZ_take_le. apply Hfits.
Qed.

(** The step from the start of a field to its entry in [offsets_]. *)
Lemma offset_step_exact i d :
  decls !! i = Some d ->
  resolved_offsets w decls lens !!! i - name_offset (field_of i d) v = raw !!! i.
Proof.
  intros Hd. pose proof (lookup_lt_Some _ _ _ Hd) as Hi.
  pose proof (name_offset_exact (S i) d) as Hnext.
  unfold name_offset in Hnext at 1. simpl in Hnext.
  rewrite Nat.sub_0_r in Hnext. rewrite Hnext by lia.
  rewrite name_offset_exact by lia.
  rewrite sumZ_take_S; [lia|]. rewrite raw_size_length; [done|lia].
Qed.

End Fits.

Lemma offset_step_wrap i d :
  decls !! i = Some d ->
  wrap w (resolved_offsets w decls lens !!! i - name_offset (field_of i d) v)
  = wrap w (raw !!! i).
Proof.
  intros Hd. pose proof (lookup_lt_Some _ _ _ Hd) as Hi.
  rewrite resolved_offsets_lookup, name_offset_resolved by (done || lia).
  rewrite wrap_sub_l, wrap_sub_r.
  rewrite sumZ_take_S by (rewrite raw_size_length; [done|lia]).
  f_equal. lia.
Qed.

End Resolved.

(** ** Contiguity *)

(** C2, as amended.  In a resolved view the first field starts at 0 and every
    later field starts at the start of its predecessor plus the size of its
    predecessor, reduced modulo [2^w]; when the layout fits in [size_t] the
    sizes are not negative and the equation holds without reduction, so the
    fields lie one after the other without gap or overlap. *)
Theorem C2_fields_contiguous w P decls (ptr : ptr_value P) lens :
  length lens = num_arrays decls ->
  exists v,
    CreateInternal w P decls ptr lens = Ok v /\
    (forall f, fields decls !! 0%nat = Some f -> name_offset f v = 0) /\
    (forall i f g,
        fields decls !! i = Some f -> fields decls !! S i = Some g ->
        name_offset g v = wrap w (name_offset f v + name_size w f v)) /\
    (fits w decls lens ->
     forall i f g,
        fields decls !! i = Some f -> fields decls !! S i = Some g ->
        0 <= name_size w f v /\
        name_offset g v = name_offset f v + name_size w f v).
Proof.
  intros Hlen. eexists. split; [by apply CreateInternal_ok|].
  split; [|split].
  - intros f. rewrite fields_lookup.
    destruct (decls !! 0%nat) as [d|]; simpl; [|done]. by intros [= <-].
  - intros i f g. rewrite !fields_lookup.
    destruct (decls !! i) as [d|] eqn:Hd; simpl; [|done].
    destruct (decls !! S i) as [d'|] eqn:Hd'; simpl; [|done].
    intros [= <-] [= <-]. by apply next_offset_wrap.
  - intros Hfits i f g. rewrite !fields_lookup.
    destruct (decls !! i) as [d|] eqn:Hd; simpl; [|done].
    destruct (decls !! S i) as [d'|] eqn:Hd'; simpl; [|done].
    intros [= <-] [= <-]. split; [|by apply next_offset_exact].
    rewrite name_size_exact by done.
    refine (proj1 (raw_exact w decls lens Hlen Hfits i _)).
    rewrite raw_size_length; [|lia]. by eapply lookup_lt_Some.
Qed.

Lemma C2_fields_contiguous_witness :
  exists v,
    CreateInternal 64 NoPtr [mkDecl 4 false; mkDecl 2 true; mkDecl 8 false] tt [3]
    = Ok v /\
    name_offset (field_of 0 (mkDecl 4 false)) v = 0 /\
    name_offset (field_of 2 (mkDecl 8 false)) v
    = name_offset (field_of 1 (mkDecl 2 true)) v
      + name_size 64 (field_of 1 (mkDecl 2 true)) v.
Proof.
  destruct (C2_fields_contiguous 64 NoPtr
              [mkDecl 4 false; mkDecl 2 true; mkDecl 8 false] tt [3] eq_refl)
    as (v & Hv & H0 & _ & Hexact).
  exists v. split; [exact Hv|]. split; [apply H0; reflexivity|].
  refine (proj2 (Hexact _ 1%nat _ _ eq_refl eq_refl)).
  split; [|reflexivity].
  simpl. repeat (apply List.Forall_cons; [lia|]). apply List.Forall_nil.
Defined.

(** The claim as written fails when a sum wraps: with an 8-byte scalar, an
    array of [2^61 - 1] elements of 8 bytes and a 4-byte scalar, the array
    starts at 8 and has size [2^64 - 8], and the last field starts at 0, where
    the first field starts too. *)
Lemma C2_counterexample :
  exists v,
    CreateInternal 64 NoPtr [mkDecl 8 false; mkDecl 8 true; mkDecl 4 false] tt
      [2 ^ 61 - 1] = Ok v /\
    name_offset (field_of 1 (mkDecl 8 true)) v = 8 /\
    name_size 64 (field_of 1 (mkDecl 8 true)) v = 2 ^ 64 - 8 /\
    name_offset (field_of 2 (mkDecl 4 false)) v = 0 /\
    name_offset (field_of 2 (mkDecl 4 false)) v
    <> name_offset (field_of 1 (mkDecl 8 true)) v
       + name_size 64 (field_of 1 (mkDecl 8 true)) v /\
    name_offset (field_of 0 (mkDecl 8 false)) v
    = name_offset (field_of 2 (mkDecl 4 false)) v.
Proof.
  eexists. split; [reflexivity|]. repeat split; try reflexivity.
  vm_compute. discriminate.
Qed.

(** ** The count of array lengths *)

Lemma CreateInternal_too_few w P decls (ptr : ptr_value P) lens :
  (length lens < num_arrays decls)%nat ->
  CreateInternal w P decls ptr lens = AssertionFailed array_sizes_not_empty.
Proof.
  intros H. rewrite CreateInternal_resolve, scaled_spec.
  by rewrite decide_False by lia.
Qed.

Lemma CreateInternal_too_many w P decls (ptr : ptr_value P) lens :
  (num_arrays decls < length lens)%nat ->
  CreateInternal w P decls ptr lens = AssertionFailed array_sizes_empty.
Proof.
  intros H. rewrite CreateInternal_resolve, scaled_spec.
  rewrite decide_True by lia. simpl.
  destruct (drop (num_arrays decls) lens) eqn:E; [|done].
  apply (f_equal length) in E. rewrite length_drop in E. simpl in E. lia.
Qed.

Lemma CreateInternal_cases w P decls (ptr : ptr_value P) lens :
  ((length lens < num_arrays decls)%nat /\
   CreateInternal w P decls ptr lens = AssertionFailed array_sizes_not_empty) \/
  (length lens = num_arrays decls /\
   CreateInternal w P decls ptr lens
   = Ok (mkVarstruct (mkInternal [] (resolved_offsets w decls lens)) ptr)) \/
  ((num_arrays decls < length lens)%nat /\
   CreateInternal w P decls ptr lens = AssertionFailed array_sizes_empty).
Proof.
  destruct (lt_eq_lt_dec (length lens) (num_arrays decls)) as [[H|H]|H].
  - left. split; [done|]. by apply CreateInternal_too_few.
  - right; left. split; [done|]. by apply CreateInternal_ok.
  - right; right. split; [done|]. by apply CreateInternal_too_many.
Qed.

(** C3.  [CreateInternal] fails with a length mismatch exactly when the number
    of supplied lengths is not the number of array fields: the first assertion
    fails exactly when there are too few, the second exactly when there are too
    many; and two sequences of the same length fail alike, whatever their
    values. *)
Theorem C3_length_mismatch w P decls (ptr : ptr_value P) lens :
  (LengthMismatch (CreateInternal w P decls ptr lens)
   <-> length lens <> num_arrays decls) /\
  (CreateInternal w P decls ptr lens = AssertionFailed array_sizes_not_empty
   <-> (length lens < num_arrays decls)%nat) /\
  (CreateInternal w P decls ptr lens = AssertionFailed array_sizes_empty
   <-> (num_arrays decls < length lens)%nat) /\
  (forall lens' : list Z,
      length lens' = length lens ->
      (LengthMismatch (CreateInternal w P decls ptr lens')
       <-> LengthMismatch (CreateInternal w P decls ptr lens))).
Proof.
  assert (Hiff : forall l,
    (LengthMismatch (CreateInternal w P decls ptr l)
     <-> length l <> num_arrays decls) /\
    (CreateInternal w P decls ptr l = AssertionFailed array_sizes_not_empty
     <-> (length l < num_arrays decls)%nat) /\
    (CreateInternal w P decls ptr l = AssertionFailed array_sizes_empty
     <-> (num_arrays decls < length l)%nat)).
  { intros l. unfold LengthMismatch.
    destruct (CreateInternal_cases w P decls ptr l)
      as [[Hn ->]|[[Hn ->]|[Hn ->]]]; repeat split;
      try (intros [?|?]); try intros ?; try discriminate; try lia; auto. }
  destruct (Hiff lens) as (H1 & H2 & H3).
  split; [exact H1|]. split; [exact H2|]. split; [exact H3|].
  intros lens' Hsame. destruct (Hiff lens') as (H1' & _).
  rewrite H1, H1', Hsame. tauto.
Qed.

(** ** The offsets vector *)

(** C7, as amended.  In the layout table of a resolved view the entry of a
    field minus the start of the field is the field's resolved size modulo
    [2^w]; when the layout fits in [size_t] the difference is the resolved size
    itself, the entry is not below the start, and it is above the start exactly
    when the resolved size is not 0, which an array of length 0 is not. *)
Theorem C7_offsets_step w P decls (ptr : ptr_value P) lens :
  length lens = num_arrays decls ->
  exists v,
    CreateInternal w P decls ptr lens = Ok v /\
    length (offsets_ (internal v)) = length decls /\
    forall i f,
      fields decls !! i = Some f ->
      wrap w (offsets_ (internal v) !!! i - name_offset f v)
      = wrap w (raw_size decls lens !!! i) /\
      (fits w decls lens ->
       offsets_ (internal v) !!! i - name_offset f v = raw_size decls lens !!! i /\
       name_offset f v <= offsets_ (internal v) !!! i /\
       (name_offset f v < offsets_ (internal v) !!! i
        <-> 0 < raw_size decls lens !!! i)).
Proof.
  intros Hlen. eexists. split; [by apply CreateInternal_ok|]. simpl.
  split; [by apply resolved_offsets_length|].
  intros i f. rewrite fields_lookup.
  destruct (decls !! i) as [d|] eqn:Hd; simpl; [|done]. intros [= <-].
  split; [by apply offset_step_wrap|].
  intros Hfits.
  pose proof (offset_step_exact w P decls ptr lens Hlen Hfits i d Hd) as Hstep.
  simpl in Hstep.
  assert (Hi : (i < length (raw_size decls lens))%nat).
  { rewrite raw_size_length; [|lia]. by eapply lookup_lt_Some. }
  pose proof (raw_exact w decls lens Hlen Hfits i Hi).
  split; [done|]. lia.
Qed.

Lemma C7_offsets_step_witness :
  exists v,
    CreateInternal 64 NoPtr [mkDecl 4 false; mkDecl 2 true; mkDecl 8 false] tt [3]
    = Ok v /\
    offsets_ (internal v) !!! 1%nat - name_offset (field_of 1 (mkDecl 2 true)) v = 6.
Proof.
  destruct (C7_offsets_step 64 NoPtr
              [mkDecl 4 false; mkDecl 2 true; mkDecl 8 false] tt [3] eq_refl)
    as (v & Hv & _ & Hstep).
  exists v. split; [exact Hv|].
  destruct (Hstep 1%nat _ eq_refl) as [_ Hexact].
  apply Hexact. split; [|reflexivity].
  simpl. repeat (apply List.Forall_cons; [lia|]). apply List.Forall_nil.
Defined.

(** The claim as written fails on a length of 0: a 4-byte scalar followed by
    an empty array of 2-byte elements resolves to the offsets 4 and 4. *)
Lemma C7_counterexample :
  exists v,
    CreateInternal 64 NoPtr [mkDecl 4 false; mkDecl 2 true] tt [0] = Ok v /\
    offsets_ (internal v) = [4; 4] /\
    ~ (offsets_ (internal v) !!! 0%nat < offsets_ (internal v) !!! 1%nat).
Proof.
  eexists. split; [reflexivity|]. split; [reflexivity|]. vm_compute. discriminate.
Qed.

(** A sum that wraps breaks the order as well: the offsets of an 8-byte
    scalar, [2^61 - 1] elements of 8 bytes and a 4-byte scalar are 8, 0, 4. *)
Lemma offsets_wrap_example :
  exists v,
    CreateInternal 64 NoPtr [mkDecl 8 false; mkDecl 8 true; mkDecl 4 false] tt
      [2 ^ 61 - 1] = Ok v /\
    offsets_ (internal v) = [8; 0; 4].
Proof. eexists. split; reflexivity. Qed.

(** ** Overflow *)

(** C10.  [CreateInternal] detects no overflow.  Whenever the count of lengths
    is right it succeeds, each array's size is [element_size * length] modulo
    [2^w], each offset is the exact prefix sum modulo [2^w] and so is
    [size_bytes]; and for every width there are a well-formed schema and
    lengths whose exact total exceeds [2^w - 1] on which it succeeds and
    returns the total less [2^w]. *)
Theorem C10_wraps_without_failing w :
  (forall P decls (ptr : ptr_value P) lens,
      length lens = num_arrays decls ->
      exists v,
        CreateInternal w P decls ptr lens = Ok v /\
        (forall i d,
            decls !! i = Some d -> decl_array d = true ->
            name_size w (field_of i d) v
            = wrap w (decl_sizeof d * lens !!! num_arrays (take i decls))) /\
        (forall i,
            (i < length decls)%nat ->
            offsets_ (internal v) !!! i
            = wrap w (sumZ (take (S i) (raw_size decls lens)))) /\
        size_bytes v = wrap w (sumZ (raw_size decls lens))) /\
  (exists decls lens,
      well_formed w decls /\ Forall (size_t w) lens /\
      modulus w - 1 < sumZ (raw_size decls lens) /\
      exists v,
        Create_offsets w decls lens = Ok v /\
        size_bytes v = sumZ (raw_size decls lens) - modulus w /\
        size_bytes v <> sumZ (raw_size decls lens)).
Proof.
  split.
  - intros P decls ptr lens Hlen. eexists.
    split; [by apply CreateInternal_ok|]. split; [|split].
    + intros i d Hd Harr. rewrite name_size_resolved by done.
      rewrite (scaled_sizes_lookup w decls lens i d) by (done || lia).
      rewrite Harr. f_equal. apply raw_size_array; [lia|done..].
    + intros i Hi. simpl. by apply resolved_offsets_lookup.
    + by apply size_bytes_resolved.
  - pose proof (modulus_gt_1 w) as HM.
    exists [mkDecl 1 false; mkDecl 1 true], [modulus w - 1].
    assert (Hsum : sumZ (raw_size [mkDecl 1 false; mkDecl 1 true] [modulus w - 1])
                   = modulus w).
    { unfold sumZ. simpl. lia. }
    split; [|split; [|split]].
    + repeat (apply List.Forall_cons; [simpl; lia|]). apply List.Forall_nil.
    + apply List.Forall_cons; [unfold size_t; lia|apply List.Forall_nil].
    + lia.
    + eexists. split; [by apply CreateInternal_ok|].
      rewrite size_bytes_resolved by done. rewrite Hsum.
      unfold wrap. rewrite Z_mod_same_full. lia.
Qed.

Lemma C10_wraps_without_failing_witness :
  exists v,
    CreateInternal 64 NoPtr [mkDecl 4 false; mkDecl 8 true] tt [2 ^ 61] = Ok v /\
    size_bytes v = wrap 64 (4 + 2 ^ 64).
Proof.
  destruct (proj1 (C10_wraps_without_failing 64) NoPtr
              [mkDecl 4 false; mkDecl 8 true] tt [2 ^ 61] eq_refl)
    as (v & Hv & _ & _ & Hsize).
  exists v. split; [exact Hv|]. rewrite Hsize. reflexivity.
Defined.

(** ** Memory: what [memcpy] reads after a [memcpy] wrote *)

Section Splice.

Context {A : Type}.
Implicit Types (l new : list A) (off : nat).

Lemma splice_length l off new :
  (off + length new <= length l)%nat ->
  length (take off l ++ new ++ drop (off + length new) l) = length l.
Proof.
  intros H. rewrite !length_app, length_take, length_drop. lia.
Qed.

Lemma splice_lookup_outside l off new k :
  (off + length new <= length l)%nat ->
  (k < off \/ off + length new <= k)%nat ->
  (take off l ++ new ++ drop (off + length new) l) !! k = l !! k.
Proof.
  intros Hin [Hk|Hk].
  - rewrite lookup_app_l by (rewrite length_take; lia).
    by apply lookup_take_lt.
  - rewrite lookup_app_r by (rewrite length_take; lia).
    rewrite length_take, Nat.min_l by lia.
    rewrite lookup_app_r by lia.
    rewrite lookup_drop. f_equal. lia.
Qed.

Lemma splice_lookup_inside l off new k :
  (off + length new <= length l)%nat ->
  (k < length new)%nat ->
  (take off l ++ new ++ drop (off + length new) l) !! (off + k)%nat = new !! k.
Proof.
  intros Hin Hk.
  rewrite lookup_app_r by (rewrite length_take; lia).
  rewrite length_take, Nat.min_l by lia.
  rewrite lookup_app_l by lia. f_equal. lia.
Qed.

Lemma splice_read l off new :
  (off + length new <= length l)%nat ->
  take (length new) (drop off (take off l ++ new ++ drop (off + length new) l))
  = new.
Proof.
  intros Hin. rewrite drop_app_length' by (rewrite length_take; lia).
  by rewrite take_app_length.
Qed.

Lemma splice_read_other l off new b k :
  (off + length new <= length l)%nat ->
  (b + k <= off \/ off + length new <= b)%nat ->
  take k (drop b (take off l ++ new ++ drop (off + length new) l))
  = take k (drop b l).
Proof.
  intros Hin Hdisj. apply list_eq. intros j.
  rewrite !lookup_take. case_decide; [|done].
  rewrite !lookup_drop. apply splice_lookup_outside; [done|lia].
Qed.

End Splice.

Lemma inside_true m address n :
  inside m address n = true
  <-> base m <= address /\ address + n <= base m + Z.of_nat (length (bytes m)).
Proof. unfold inside. rewrite andb_true_iff, !Z.leb_le. done. Qed.

Lemma memcpy_to_Ok m dst new_value n :
  inside m dst n = true -> Z.of_nat (length new_value) = n ->
  memcpy_to m dst new_value n
  = Ok (mkBuffer (base m)
          (take (Z.to_nat (dst - base m)) (bytes m) ++ new_value
           ++ drop (Z.to_nat (dst - base m) + length new_value) (bytes m))).
Proof.
  intros Hin Hn. unfold memcpy_to. rewrite Hin.
  rewrite (proj2 (Z.eqb_eq _ _) Hn). simpl.
  apply inside_true in Hin. do 4 f_equal. f_equal. lia.
Qed.

Lemma memcpy_to_inv m dst new_value n m' :
  memcpy_to m dst new_value n = Ok m' ->
  inside m dst n = true /\ Z.of_nat (length new_value) = n.
Proof.
  unfold memcpy_to. destruct (inside m dst n); simpl; [|done].
  destruct (Z.eqb_spec (Z.of_nat (length new_value)) n); done.
Qed.

(** A write leaves the base and the length of the buffer as they were. *)
Lemma memcpy_to_shape m dst new_value n m' :
  memcpy_to m dst new_value n = Ok m' ->
  base m' = base m /\ length (bytes m') = length (bytes m).
Proof.
  intros H. destruct (memcpy_to_inv _ _ _ _ _ H) as [Hin Hn].
  rewrite memcpy_to_Ok in H by done. injection H as <-. simpl.
  split; [done|]. apply inside_true in Hin. apply splice_length. lia.
Qed.

(** Bytes outside the written range keep their values. *)
Lemma memcpy_to_outside m dst new_value n m' (k : nat) :
  memcpy_to m dst new_value n = Ok m' ->
  base m + Z.of_nat k < dst \/ dst + n <= base m + Z.of_nat k ->
  bytes m' !! k = bytes m !! k.
Proof.
  intros H Hk. destruct (memcpy_to_inv _ _ _ _ _ H) as [Hin Hn].
  rewrite memcpy_to_Ok in H by done. injection H as <-. simpl.
  apply inside_true in Hin. apply splice_lookup_outside; lia.
Qed.

(** Reading back what was written. *)
Lemma memcpy_round_trip m dst new_value n :
  inside m dst n = true -> Z.of_nat (length new_value) = n ->
  exists m',
    memcpy_to m dst new_value n = Ok m' /\ memcpy_from m' dst n = Ok new_value.
Proof.
  intros Hin Hn. eexists. split; [by apply memcpy_to_Ok|].
  unfold memcpy_from, inside in *. simpl.
  apply andb_true_iff in Hin as [Hlo Hhi].
  apply Z.leb_le in Hlo, Hhi.
  rewrite splice_length by lia.
  rewrite (proj2 (Z.leb_le _ _) Hlo), (proj2 (Z.leb_le _ _) Hhi). simpl.
  f_equal. replace (Z.to_nat n) with (length new_value) by lia.
  apply splice_read. lia.
Qed.

(** Reading a range disjoint from the written one. *)
Lemma memcpy_frame m dst new_value n m' src k :
  memcpy_to m dst new_value n = Ok m' ->
  0 <= k -> src + k <= dst \/ dst + n <= src ->
  memcpy_from m' src k = memcpy_from m src k.
Proof.
  intros H Hk Hdisj. destruct (memcpy_to_inv _ _ _ _ _ H) as [Hin Hn].
  destruct (memcpy_to_shape _ _ _ _ _ H) as [Hbase Hlen].
  unfold memcpy_from. unfold inside at 1. rewrite Hbase, Hlen.
  fold (inside m src k). destruct (inside m src k) eqn:Hsrc; [|done].
  rewrite memcpy_to_Ok in H by done. injection H as <-. simpl.
  apply inside_true in Hin, Hsrc. f_equal.
  apply splice_read_other; lia.
Qed.

(** ** The accessors as reads and writes at [element_offset] *)

Section Access.

Variables (w : positive) (v : Varstruct VoidPtr) (f : Field).

Lemma scalar_name_at m :
  scalar_name w (P := VoidPtr) eq_refl f v m
  = memcpy_from m (ptr_ v + element_offset f v 0) (sizeof_decl f).
Proof.
  unfold scalar_name, void_ptr, kBoundsCheck, element_offset. simpl.
  unfold wrap. rewrite Z.mul_0_l, Zmod_0_l. f_equal. lia.
Qed.

Lemma scalar_set_name_at new_value m :
  scalar_set_name w (P := VoidPtr) eq_refl f v new_value m
  = memcpy_to m (ptr_ v + element_offset f v 0) new_value (sizeof_decl f).
Proof.
  unfold scalar_set_name, void_ptr, kBoundsCheck, element_offset. simpl.
  unfold wrap. rewrite Z.mul_0_l, Zmod_0_l. f_equal. lia.
Qed.

Hypothesis Hsizeof : 0 < sizeof_decl f.
Hypothesis Hsize : 0 <= name_size w f v < modulus w.

(** An index below the element count addresses an element inside the field. *)
Lemma element_inside_field array_index :
  0 <= array_index < name_size w f v / sizeof_decl f ->
  0 <= array_index * sizeof_decl f /\
  array_index * sizeof_decl f + sizeof_decl f <= name_size w f v.
Proof.
  intros [H0 Hlt]. split; [nia|].
  pose proof (Z.mul_div_le (name_size w f v) (sizeof_decl f) Hsizeof). nia.
Qed.

Lemma void_ptr_in_range bounds_check array_index :
  0 <= array_index < name_size w f v / sizeof_decl f ->
  void_ptr w (P := VoidPtr) eq_refl bounds_check f v array_index
  = Ok (ptr_ v + element_offset f v array_index).
Proof.
  intros Hidx. destruct (element_inside_field _ Hidx) as [H0 Hle].
  unfold void_ptr, element_offset. simpl.
  rewrite wrap_small by lia.
  destruct bounds_check; [|f_equal; lia].
  destruct Hidx as [Hlo Hhi].
  rewrite (proj2 (Z.leb_le _ _) Hlo), (proj2 (Z.ltb_lt _ _) Hhi). simpl.
  f_equal. lia.
Qed.

Lemma array_name_at bounds_check array_index m :
  0 <= array_index < name_size w f v / sizeof_decl f ->
  array_name w (P := VoidPtr) eq_refl bounds_check f v array_index m
  = memcpy_from m (ptr_ v + element_offset f v array_index) (sizeof_decl f).
Proof.
  intros Hidx. unfold array_name. by rewrite void_ptr_in_range.
Qed.

Lemma array_set_name_at bounds_check array_index new_value m :
  0 <= array_index < name_size w f v / sizeof_decl f ->
  array_set_name w (P := VoidPtr) eq_refl bounds_check f v array_index new_value m
  = memcpy_to m (ptr_ v + element_offset f v array_index) new_value
      (sizeof_decl f).
Proof.
  intros Hidx. unfold array_set_name.
  change (write_enabled_read (P := VoidPtr) eq_refl) with (@eq_refl bool true).
  by rewrite void_ptr_in_range.
Qed.

End Access.

(** ** A resolved view over a sufficient buffer *)

Lemma raw_size_nonneg w decls : forall lens,
  well_formed w decls -> Forall (size_t w) lens ->
  Forall (fun r => 0 <= r) (raw_size decls lens).
Proof.
  induction decls as [|d rest IH]; intros lens Hwf Hlens; simpl.
  - apply List.Forall_nil.
  - apply Forall_cons_1 in Hwf as [Hd Hrest].
    destruct (decl_array d).
    + destruct lens as [|len lens]; [apply List.Forall_nil|].
      apply Forall_cons_1 in Hlens as [Hlen Hlens].
      apply List.Forall_cons; [unfold size_t in Hlen; nia|by apply IH].
    + apply List.Forall_cons; [lia|by apply IH].
Qed.

Lemma sumZ_take_mono (l : list Z) a b :
  Forall (fun x => 0 <= x) l -> (a <= b)%nat ->
  sumZ (take a l) <= sumZ (take b l).
Proof.
  intros Hnn Hab. replace (take a l) with (take a (take b l)).
  - apply sumZ_take_le. by apply Forall_take.
  - rewrite take_take. f_equal. lia.
Qed.

Lemma fits_size_t w decls lens :
  well_formed w decls -> Forall (size_t w) lens ->
  sumZ (raw_size decls lens) < modulus w -> fits w decls lens.
Proof. intros Hwf Hlens Hlt. split; [by eapply raw_size_nonneg|done]. Qed.

Lemma sufficient_fits w decls lens m :
  well_formed w decls -> Forall (size_t w) lens ->
  sufficient w decls lens m -> fits w decls lens.
Proof.
  intros Hwf Hlens [Hle Hlt]. split; [by eapply raw_size_nonneg|lia].
Qed.

(** With a layout that fits, the buffer is sufficient exactly when it has
    [size_bytes] bytes. *)
Lemma sufficient_size_bytes w decls lens m v :
  fits w decls lens ->
  Create_mutable w decls (base m) lens = Ok v ->
  Z.of_nat (length (bytes m)) < modulus w ->
  (sufficient w decls lens m <-> size_bytes v <= Z.of_nat (length (bytes m))).
Proof.
  intros Hfits Hv Hlt. unfold Create_mutable in Hv.
  destruct (CreateInternal_cases w VoidPtr decls (base m) lens)
    as [[_ E]|[[Hcount E]|[_ E]]]; rewrite E in Hv; try done.
  injection Hv as <-. rewrite size_bytes_exact by done.
  unfold sufficient. tauto.
Qed.

Section Bound.

Variables (w : positive) (decls : list FieldDecl) (lens : list Z) (m : buffer).
Hypothesis Hwf : well_formed w decls.
Hypothesis Hlens : Forall (size_t w) lens.
Hypothesis Hcount : length lens = num_arrays decls.
Hypothesis Hsuff : sufficient w decls lens m.

Local Abbreviation v :=
  (@mkVarstruct VoidPtr (mkInternal [] (resolved_offsets w decls lens)) (base m)).

Lemma decl_sizeof_range i d :
  decls !! i = Some d -> 0 < decl_sizeof d < modulus w.
Proof. intros Hd. by apply (Forall_lookup_1 _ _ _ _ Hwf Hd). Qed.

Lemma field_in_buffer i d :
  decls !! i = Some d ->
  0 <= name_offset (field_of i d) v /\
  name_offset (field_of i d) v + name_size w (field_of i d) v
  <= Z.of_nat (length (bytes m)).
Proof.
  intros Hd. pose proof (lookup_lt_Some _ _ _ Hd) as Hi.
  pose proof (sufficient_fits _ _ _ _ Hwf Hlens Hsuff) as Hfits.
  split.
  - rewrite name_offset_exact by (done || lia).
    apply sumZ_nonneg, Forall_take, Hfits.
  - pose proof (field_end_le_size_bytes w VoidPtr decls (base m) lens
                  Hcount Hfits i d Hd) as Hend.
    rewrite size_bytes_exact in Hend by done.
    destruct Hsuff as [Hle _]. lia.
Qed.

Lemma element_within_field i d array_index :
  decls !! i = Some d ->
  valid_index w (field_of i d) v array_index ->
  name_offset (field_of i d) v <= element_offset (field_of i d) v array_index /\
  element_offset (field_of i d) v array_index + decl_sizeof d
  <= name_offset (field_of i d) v + name_size w (field_of i d) v.
Proof.
  intros Hd Hidx. pose proof (decl_sizeof_range i d Hd) as Hsz.
  unfold valid_index, element_offset in *. simpl in *.
  destruct (decl_array d) eqn:Earr.
  - pose proof (name_size_range w VoidPtr decls (base m) lens Hcount i d Hd Hsz)
      as Hrange.
    destruct (element_inside_field w v (field_of i d) (proj1 Hsz)
                array_index Hidx) as [H0 Hle].
    simpl in *. lia.
  - subst array_index. unfold name_size. simpl. rewrite Earr. lia.
Qed.

Lemma element_in_buffer i d array_index :
  decls !! i = Some d ->
  valid_index w (field_of i d) v array_index ->
  inside m (base m + element_offset (field_of i d) v array_index)
    (decl_sizeof d) = true.
Proof.
  intros Hd Hidx. apply inside_true.
  destruct (field_in_buffer i d Hd) as [H0 Hend].
  destruct (element_within_field i d array_index Hd Hidx) as [Hlo Hhi].
  lia.
Qed.

Lemma fields_ordered i j d d' :
  (i < j)%nat -> decls !! i = Some d -> decls !! j = Some d' ->
  name_offset (field_of i d) v + name_size w (field_of i d) v
  <= name_offset (field_of j d') v.
Proof.
  intros Hij Hd Hd'. pose proof (lookup_lt_Some _ _ _ Hd') as Hj.
  pose proof (sufficient_fits _ _ _ _ Hwf Hlens Hsuff) as Hfits.
  rewrite <- (next_offset_exact w VoidPtr decls (base m) lens Hcount Hfits i d d)
    by done.
  rewrite !name_offset_exact by (done || lia).
  apply sumZ_take_mono; [apply Hfits|lia].
Qed.

(** Two different elements occupy disjoint byte ranges. *)
Lemma elements_disjoint i j d d' array_index array_index' :
  decls !! i = Some d -> decls !! j = Some d' ->
  valid_index w (field_of i d) v array_index ->
  valid_index w (field_of j d') v array_index' ->
  i <> j \/ array_index <> array_index' ->
  element_offset (field_of i d) v array_index + decl_sizeof d
  <= element_offset (field_of j d') v array_index' \/
  element_offset (field_of j d') v array_index' + decl_sizeof d'
  <= element_offset (field_of i d) v array_index.
Proof.
  intros Hd Hd' Hidx Hidx' Hne.
  destruct (element_within_field i d array_index Hd Hidx) as [Hlo Hhi].
  destruct (element_within_field j d' array_index' Hd' Hidx') as [Hlo' Hhi'].
  destruct (lt_eq_lt_dec i j) as [[Hlt|Heq]|Hgt].
  - left. pose proof (fields_ordered i j d d' Hlt Hd Hd'). lia.
  - subst j. assert (d' = d) as -> by congruence.
    destruct Hne as [|Hne]; [done|].
    pose proof (decl_sizeof_range i d Hd) as Hsz.
    unfold valid_index, element_offset in *. simpl in *.
    destruct (decl_array d); [|lia].
    destruct (Z.lt_total array_index array_index') as [?|[?|?]]; [left|done|right];
      nia.
  - right. pose proof (fields_ordered j i d' d Hgt Hd' Hd). lia.
Qed.

End Bound.

(** ** Bounds checking *)

Lemma memcpy_from_not_assertion m src n s :
  memcpy_from m src n <> AssertionFailed s.
Proof. unfold memcpy_from. by destruct (inside m src n). Qed.

Lemma memcpy_to_not_assertion m dst new_value n s :
  memcpy_to m dst new_value n <> AssertionFailed s.
Proof. unfold memcpy_to. by destruct (_ && _). Qed.

Lemma void_ptr_checked w P (en : read_enabled P = true) f (v : Varstruct P) idx :
  (0 <= idx < name_size w f v / sizeof_decl f ->
   void_ptr w en true f v idx
   = Ok (char_ptr P en (ptr_ v) + name_offset f v + wrap w (idx * sizeof_decl f)))
  /\
  (idx < 0 \/ name_size w f v / sizeof_decl f <= idx ->
   void_ptr w en true f v idx = AssertionFailed array_index_in_bounds).
Proof.
  unfold void_ptr. split.
  - intros [Hlo Hhi].
    by rewrite (proj2 (Z.leb_le _ _) Hlo), (proj2 (Z.ltb_lt _ _) Hhi).
  - intros [Hlt|Hge].
    + by rewrite (proj2 (Z.leb_gt _ _) Hlt).
    + rewrite (proj2 (Z.ltb_ge _ _) Hge). by rewrite andb_false_r.
Qed.

(** C4.  For an array field with element count [name_size / sizeof]: an
    indexed read or write with bounds checking on (asked for, or by leaving the
    flag out) fails with [OutOfRange] exactly when the index is below 0 or not
    below the element count, whatever the buffer holds, and then no pointer is
    formed and no [memcpy] runs; with bounds checking off the pointer is formed
    for every index and the access is the [memcpy] at that pointer, never an
    [OutOfRange].  ([array_index] is a [size_t] in the source, so it is never
    below 0 there.) *)
Theorem C4_bounds_check w P f (v : Varstruct P) (array_index : Z)
    (new_value : list byte) (m : buffer) :
  (forall (en : read_enabled P = true) bounds_check,
      template_arg true bounds_check = true ->
      (OutOfRange (array_name w en bounds_check f v array_index m)
       <-> array_index < 0 \/ name_size w f v / sizeof_decl f <= array_index) /\
      (array_index < 0 \/ name_size w f v / sizeof_decl f <= array_index ->
       void_ptr w en true f v array_index
       = AssertionFailed array_index_in_bounds)) /\
  (forall (en : write_enabled P = true) bounds_check,
      template_arg true bounds_check = true ->
      (OutOfRange (array_set_name w en bounds_check f v array_index new_value m)
       <-> array_index < 0 \/ name_size w f v / sizeof_decl f <= array_index)) /\
  (forall (en : read_enabled P = true),
      void_ptr w en false f v array_index
      = Ok (char_ptr P en (ptr_ v) + name_offset f v
            + wrap w (array_index * sizeof_decl f)) /\
      array_name w en (Some false) f v array_index m
      = memcpy_from m
          (char_ptr P en (ptr_ v) + name_offset f v
           + wrap w (array_index * sizeof_decl f)) (sizeof_decl f) /\
      ~ OutOfRange (array_name w en (Some false) f v array_index m)) /\
  (forall (en : write_enabled P = true),
      array_set_name w en (Some false) f v array_index new_value m
      = memcpy_to m
          (char_ptr P (write_enabled_read en) (ptr_ v) + name_offset f v
           + wrap w (array_index * sizeof_decl f)) new_value (sizeof_decl f) /\
      ~ OutOfRange (array_set_name w en (Some false) f v array_index new_value m)).
Proof.
  assert (Hcases :
    (0 <= array_index < name_size w f v / sizeof_decl f) \/
    (array_index < 0 \/ name_size w f v / sizeof_decl f <= array_index)) by lia.
  split; [|split; [|split]].
  - intros en bc Hbc. unfold array_name, OutOfRange. rewrite Hbc.
    destruct (void_ptr_checked w P en f v array_index) as [Hin Hout].
    split; [|exact Hout].
    destruct Hcases as [Hc|Hc].
    + rewrite (Hin Hc). simpl. split; [|lia].
      intros H. by apply memcpy_from_not_assertion in H.
    + rewrite (Hout Hc). simpl. tauto.
  - intros en bc Hbc. unfold array_set_name, OutOfRange. rewrite Hbc.
    destruct (void_ptr_checked w P (write_enabled_read en) f v array_index)
      as [Hin Hout].
    destruct Hcases as [Hc|Hc].
    + rewrite (Hin Hc). simpl. split; [|lia].
      intros H. by apply memcpy_to_not_assertion in H.
    + rewrite (Hout Hc). simpl. tauto.
  - intros en. unfold array_name, OutOfRange. simpl.
    split; [done|]. split; [done|]. apply memcpy_from_not_assertion.
  - intros en. unfold array_set_name, OutOfRange. simpl.
    split; [done|]. apply memcpy_to_not_assertion.
Qed.

Lemma C4_bounds_check_witness :
  exists v,
    Create_mutable 64 [mkDecl 4 false; mkDecl 2 true; mkDecl 8 false] 4096 [3]
    = Ok v /\
    OutOfRange (array_name 64 (P := VoidPtr) eq_refl None
                  (field_of 1 (mkDecl 2 true)) v 3
                  (mkBuffer 4096 (repeat x00 18))) /\
    ~ OutOfRange (array_name 64 (P := VoidPtr) eq_refl (Some false)
                    (field_of 1 (mkDecl 2 true)) v 3
                    (mkBuffer 4096 (repeat x00 18))).
Proof.
  eexists. split; [reflexivity|].
  pose proof (C4_bounds_check 64 VoidPtr (field_of 1 (mkDecl 2 true))
                (@mkVarstruct VoidPtr (mkInternal [] [4; 10; 18]) 4096) 3 []
                (mkBuffer 4096 (repeat x00 18))) as (Hon & _ & Hoff & _).
  split.
  - apply (Hon eq_refl None eq_refl). right. vm_compute. discriminate.
  - apply (Hoff eq_refl).
Defined.

(** ** Round trip and frame *)

Lemma Create_mutable_inv w decls ptr lens v :
  Create_mutable w decls ptr lens = Ok v ->
  length lens = num_arrays decls /\
  v = @mkVarstruct VoidPtr (mkInternal [] (resolved_offsets w decls lens)) ptr.
Proof.
  unfold Create_mutable. intros Hv.
  destruct (CreateInternal_cases w VoidPtr decls ptr lens)
    as [[_ E]|[[Hcount E]|[_ E]]]; rewrite E in Hv; try done.
  by injection Hv as <-.
Qed.

Lemma fields_lookup_inv decls i f :
  fields decls !! i = Some f ->
  exists d, decls !! i = Some d /\ f = field_of i d.
Proof.
  rewrite fields_lookup. destruct (decls !! i) as [d|]; simpl; [|done].
  intros [= <-]. by exists d.
Qed.

(** A write to a valid element succeeds, reads back, and leaves the rest. *)
Lemma write_element w decls lens m i d array_index new_value :
  well_formed w decls -> Forall (size_t w) lens ->
  length lens = num_arrays decls -> sufficient w decls lens m ->
  decls !! i = Some d ->
  Z.of_nat (length new_value) = decl_sizeof d ->
  valid_index w (field_of i d)
    (@mkVarstruct VoidPtr (mkInternal [] (resolved_offsets w decls lens)) (base m))
    array_index ->
  let v := @mkVarstruct VoidPtr
             (mkInternal [] (resolved_offsets w decls lens)) (base m) in
  let dst := base m + element_offset (field_of i d) v array_index in
  exists m',
    memcpy_to m dst new_value (decl_sizeof d) = Ok m' /\
    memcpy_from m' dst (decl_sizeof d) = Ok new_value /\
    same_outside m m' (element_offset (field_of i d) v array_index) (decl_sizeof d) /\
    forall j d' array_index',
      decls !! j = Some d' ->
      valid_index w (field_of j d') v array_index' ->
      j <> i \/ array_index' <> array_index ->
      memcpy_from m' (base m + element_offset (field_of j d') v array_index')
        (decl_sizeof d')
      = memcpy_from m (base m + element_offset (field_of j d') v array_index')
          (decl_sizeof d').
Proof.
  intros Hwf Hlens Hcount Hsuff Hd Hlen Hidx v dst.
  pose proof (element_in_buffer w decls lens m Hwf Hlens Hcount Hsuff
                i d array_index Hd Hidx) as Hin.
  destruct (memcpy_round_trip m dst new_value (decl_sizeof d) Hin Hlen)
    as (m' & Hset & Hget).
  exists m'. split; [done|]. split; [done|].
  destruct (memcpy_to_shape _ _ _ _ _ Hset) as [Hbase Hshape].
  split.
  - split; [done|]. split; [done|]. intros k Hk.
    apply (memcpy_to_outside _ _ _ _ _ k Hset). unfold dst. lia.
  - intros j d' array_index' Hd' Hidx' Hne.
    apply (memcpy_frame _ _ _ _ _ _ _ Hset).
    + pose proof (decl_sizeof_range w decls Hwf j d' Hd'). lia.
    + assert (Hne' : i <> j \/ array_index <> array_index').
      { destruct Hne; [left|right]; congruence. }
      pose proof (elements_disjoint w decls lens m Hwf Hlens Hcount Hsuff
                    i j d d' array_index array_index' Hd Hd' Hidx Hidx' Hne').
      subst dst v. lia.
Qed.

Lemma reads_preserved w decls lens m m' i array_index :
  well_formed w decls -> length lens = num_arrays decls ->
  let v := @mkVarstruct VoidPtr
             (mkInternal [] (resolved_offsets w decls lens)) (base m) in
  (forall j d' array_index',
      decls !! j = Some d' ->
      valid_index w (field_of j d') v array_index' ->
      j <> i \/ array_index' <> array_index ->
      memcpy_from m' (base m + element_offset (field_of j d') v array_index')
        (decl_sizeof d')
      = memcpy_from m (base m + element_offset (field_of j d') v array_index')
          (decl_sizeof d')) ->
  same_reads w decls v i array_index m m'.
Proof.
  intros Hwf Hcount v Hframe j g Hg.
  destruct (fields_lookup_inv _ _ _ Hg) as (d' & Hd' & ->).
  pose proof (decl_sizeof_range w decls Hwf j d' Hd') as Hsz.
  split.
  - intros Harr Hne. rewrite !scalar_name_at. simpl in *.
    apply Hframe; [done| |by left].
    unfold valid_index. simpl. by rewrite Harr.
  - intros Harr bc jdx Hjdx Hne. simpl in *.
    pose proof (name_size_range w VoidPtr decls (base m) lens Hcount j d' Hd' Hsz)
      as Hrange.
    rewrite !(array_name_at w v (field_of j d') (proj1 Hsz) Hrange) by done.
    apply Hframe; [done| |done].
    unfold valid_index. simpl. by rewrite Harr.
Qed.

(** *** Layouts whose prefix sums do not wrap *)

Section NoWrap.

Variables (w : positive) (decls : list FieldDecl) (lens : list Z) (m : buffer).
Hypothesis Hwf : well_formed w decls.
Hypothesis Hcount : length lens = num_arrays decls.
Hypothesis Hnowrap : no_wrap w decls lens.

Local Abbreviation sizes := (scaled_sizes w decls lens).
Local Abbreviation v :=
  (@mkVarstruct VoidPtr (mkInternal [] (resolved_offsets w decls lens)) (base m)).

Lemma scaled_sizes_nonneg : Forall (fun s => 0 <= s) sizes.
Proof.
  apply Forall_lookup_2. intros i s Hs.
  assert (Hi : (i < length decls)%nat).
  { rewrite <- (scaled_sizes_length w decls lens) by lia.
    by eapply lookup_lt_Some. }
  destruct (lookup_lt_is_Some_2 decls i Hi) as [d Hd].
  pose proof (name_size_range w VoidPtr decls (base m) lens Hcount i d Hd
                (decl_sizeof_range w decls Hwf i d Hd)) as Hr.
  rewrite name_size_resolved in Hr by done.
  apply list_lookup_total_correct in Hs. rewrite Hs in Hr. lia.
Qed.

Lemma prefix_nowrap i : wrap w (sumZ (take i sizes)) = sumZ (take i sizes).
Proof.
  apply wrap_small. split.
  - apply sumZ_nonneg, Forall_take, scaled_sizes_nonneg.
  - pose proof (sumZ_take_le sizes i scaled_sizes_nonneg).
    unfold no_wrap in Hnowrap. lia.
Qed.

Lemma name_offset_nowrap i d :
  (i <= length decls)%nat ->
  name_offset (field_of i d) v = sumZ (take i sizes).
Proof.
  intros Hi. unfold name_offset. simpl. destruct i as [|i]; simpl; [done|].
  rewrite Nat.sub_0_r. unfold resolved_offsets.
  rewrite prefix_sums_lookup by (rewrite scaled_sizes_length; lia).
  rewrite Z.add_0_l. apply prefix_nowrap.
Qed.

Lemma field_end_nowrap i d :
  decls !! i = Some d ->
  name_offset (field_of i d) v + name_size w (field_of i d) v
  = sumZ (take (S i) sizes).
Proof.
  intros Hd. pose proof (lookup_lt_Some _ _ _ Hd) as Hi.
  rewrite name_offset_nowrap by lia. rewrite name_size_resolved by done.
  symmetry. apply sumZ_take_S. rewrite scaled_sizes_length; lia.
Qed.

Lemma size_bytes_nowrap : size_bytes v = sumZ sizes.
Proof.
  unfold size_bytes. simpl.
  rewrite last_lookup, resolved_offsets_length by done.
  destruct (decide (length decls = 0%nat)) as [Hz|Hnz].
  - assert (Hsz : length sizes = 0%nat)
      by (rewrite scaled_sizes_length; lia).
    destruct sizes; [|done].
    rewrite lookup_ge_None_2; [done|].
    rewrite resolved_offsets_length by done. lia.
  - assert (Hi : (pred (length decls)
                  < length (resolved_offsets w decls lens))%nat)
      by (rewrite resolved_offsets_length by done; lia).
    rewrite (list_lookup_lookup_total_lt _ _ Hi). simpl.
    unfold resolved_offsets.
    rewrite prefix_sums_lookup by (rewrite scaled_sizes_length; lia).
    rewrite Z.add_0_l, prefix_nowrap.
    f_equal. apply take_ge. rewrite scaled_sizes_length; lia.
Qed.

Lemma fields_ordered_nowrap i j d d' :
  (i < j)%nat -> decls !! i = Some d -> decls !! j = Some d' ->
  name_offset (field_of i d) v + name_size w (field_of i d) v
  <= name_offset (field_of j d') v.
Proof.
  intros Hij Hd Hd'. pose proof (lookup_lt_Some _ _ _ Hd') as Hj.
  rewrite field_end_nowrap by done. rewrite name_offset_nowrap by lia.
  apply sumZ_take_mono; [apply scaled_sizes_nonneg|lia].
Qed.

Lemma element_in_buffer_nowrap i d array_index :
  size_bytes v <= Z.of_nat (length (bytes m)) ->
  decls !! i = Some d ->
  valid_index w (field_of i d) v array_index ->
  inside m (base m + element_offset (field_of i d) v array_index)
    (decl_sizeof d) = true.
Proof.
  intros Hbuf Hd Hidx. pose proof (lookup_lt_Some _ _ _ Hd) as Hi.
  apply inside_true.
  destruct (element_within_field w decls lens m Hwf Hcount i d array_index
              Hd Hidx) as [Hlo Hhi].
  pose proof (field_end_nowrap i d Hd) as Hend.
  pose proof (name_offset_nowrap i d ltac:(lia)) as Hstart.
  pose proof (sumZ_nonneg _ (Forall_take _ i _ scaled_sizes_nonneg)).
  pose proof (sumZ_take_le sizes (S i) scaled_sizes_nonneg).
  rewrite size_bytes_nowrap in Hbuf. lia.
Qed.

Lemma elements_disjoint_nowrap i j d d' array_index array_index' :
  decls !! i = Some d -> decls !! j = Some d' ->
  valid_index w (field_of i d) v array_index ->
  valid_index w (field_of j d') v array_index' ->
  i <> j \/ array_index <> array_index' ->
  element_offset (field_of i d) v array_index + decl_sizeof d
  <= element_offset (field_of j d') v array_index' \/
  element_offset (field_of j d') v array_index' + decl_sizeof d'
  <= element_offset (field_of i d) v array_index.
Proof.
  intros Hd Hd' Hidx Hidx' Hne.
  destruct (element_within_field w decls lens m Hwf Hcount i d array_index
              Hd Hidx) as [Hlo Hhi].
  destruct (element_within_field w decls lens m Hwf Hcount j d' array_index'
              Hd' Hidx') as [Hlo' Hhi'].
  destruct (lt_eq_lt_dec i j) as [[Hlt|Heq]|Hgt].
  - left. pose proof (fields_ordered_nowrap i j d d' Hlt Hd Hd'). lia.
  - subst j. assert (d' = d) as -> by congruence.
    destruct Hne as [|Hne]; [done|].
    pose proof (decl_sizeof_range w decls Hwf i d Hd) as Hsz.
    unfold valid_index, element_offset in *. simpl in *.
    destruct (decl_array d); [|lia].
    destruct (Z.lt_total array_index array_index') as [?|[?|?]]; [left|done|right];
      nia.
  - right. pose proof (fields_ordered_nowrap j i d' d Hgt Hd' Hd). lia.
Qed.

End NoWrap.

(** A write whose bytes lie in the buffer succeeds, reads back, and leaves
    the bytes around it. *)
Lemma write_inside m lo new_value n :
  inside m (base m + lo) n = true -> Z.of_nat (length new_value) = n ->
  exists m',
    memcpy_to m (base m + lo) new_value n = Ok m' /\
    memcpy_from m' (base m + lo) n = Ok new_value /\
    same_outside m m' lo n.
Proof.
  intros Hin Hlen.
  destruct (memcpy_round_trip m (base m + lo) new_value n Hin Hlen)
    as (m' & Hset & Hget).
  exists m'. split; [done|]. split; [done|].
  destruct (memcpy_to_shape _ _ _ _ _ Hset) as [Hbase Hshape].
  split; [done|]. split; [done|]. intros k Hk.
  apply (memcpy_to_outside _ _ _ _ _ k Hset). lia.
Qed.

Lemma reads_preserved_nowrap w decls lens m m' i d array_index new_value :
  well_formed w decls -> length lens = num_arrays decls ->
  no_wrap w decls lens ->
  decls !! i = Some d ->
  valid_index w (field_of i d)
    (@mkVarstruct VoidPtr (mkInternal [] (resolved_offsets w decls lens)) (base m))
    array_index ->
  memcpy_to m
    (base m
     + element_offset (field_of i d)
         (@mkVarstruct VoidPtr (mkInternal [] (resolved_offsets w decls lens))
            (base m)) array_index) new_value (decl_sizeof d) = Ok m' ->
  same_reads w decls
    (@mkVarstruct VoidPtr (mkInternal [] (resolved_offsets w decls lens)) (base m))
    i array_index m m'.
Proof.
  intros Hwf Hcount Hnowrap Hd Hidx Hset.
  apply (reads_preserved w decls lens m m' i array_index Hwf Hcount).
  intros j d' array_index' Hd' Hidx' Hne.
  apply (memcpy_frame _ _ _ _ _ _ _ Hset).
  - pose proof (decl_sizeof_range w decls Hwf j d' Hd'). lia.
  - assert (Hne' : i <> j \/ array_index <> array_index').
    { destruct Hne; [left|right]; congruence. }
    pose proof (elements_disjoint_nowrap w decls lens m Hwf Hcount Hnowrap
                  i j d d' array_index array_index' Hd Hd' Hidx Hidx' Hne').
    lia.
Qed.

(** C5, as amended.  In a mutable view, writing a value of
    [sizeof(decl_type)] bytes to a scalar field, or to an element of an array
    field at an index below the element count, succeeds and the read of the
    same field or element that follows returns that value, provided the
    [sizeof(decl_type)] bytes at [start(f) + index * sizeof(decl_type)] lie
    within the buffer.  They do, for every field and every such index, when
    the buffer has at least [size_bytes] bytes and the sum of the field sizes
    as [CreateInternal] computes them, each array product modulo [2^w], is
    below [2^w]. *)
Theorem C5_round_trip w decls lens m v i f new_value :
  well_formed w decls ->
  Create_mutable w decls (base m) lens = Ok v ->
  fields decls !! i = Some f ->
  Z.of_nat (length new_value) = sizeof_decl f ->
  (is_array f = false ->
   inside m (base m + element_offset f v 0) (sizeof_decl f) = true ->
   exists m',
     scalar_set_name w (P := VoidPtr) eq_refl f v new_value m = Ok m' /\
     scalar_name w (P := VoidPtr) eq_refl f v m' = Ok new_value) /\
  (is_array f = true ->
   forall array_index bounds_check bounds_check',
     0 <= array_index < name_size w f v / sizeof_decl f ->
     inside m (base m + element_offset f v array_index) (sizeof_decl f) = true ->
     exists m',
       array_set_name w (P := VoidPtr) eq_refl bounds_check f v array_index
         new_value m = Ok m' /\
       array_name w (P := VoidPtr) eq_refl bounds_check' f v array_index m'
       = Ok new_value) /\
  (no_wrap w decls lens ->
   size_bytes v <= Z.of_nat (length (bytes m)) ->
   forall array_index,
     valid_index w f v array_index ->
     inside m (base m + element_offset f v array_index) (sizeof_decl f) = true).
Proof.
  intros Hwf Hv Hf Hlen.
  destruct (Create_mutable_inv _ _ _ _ _ Hv) as [Hcount ->].
  destruct (fields_lookup_inv _ _ _ Hf) as (d & Hd & ->). simpl in *.
  pose proof (decl_sizeof_range w decls Hwf i d Hd) as Hsz.
  split; [|split].
  - intros Harr Hin.
    destruct (write_inside m _ new_value _ Hin Hlen) as (m' & Hset & Hget & _).
    exists m'. by rewrite scalar_set_name_at, scalar_name_at.
  - intros Harr idx bc bc' Hidx Hin.
    destruct (write_inside m _ new_value _ Hin Hlen) as (m' & Hset & Hget & _).
    exists m'.
    pose proof (name_size_range w VoidPtr decls (base m) lens Hcount i d Hd Hsz)
      as Hrange.
    rewrite (array_set_name_at w _ (field_of i d) (proj1 Hsz) Hrange) by done.
    rewrite (array_name_at w _ (field_of i d) (proj1 Hsz) Hrange) by done.
    done.
  - intros Hnowrap Hbuf idx Hidx.
    by apply element_in_buffer_nowrap.
Qed.

(** The layout 4, 4 of a 4-byte scalar and [2^61] elements of 8 bytes, whose
    product wraps, over a buffer of [size_bytes = 4] bytes. *)
Lemma C5_round_trip_witness :
  exists m',
    scalar_set_name 64 (P := VoidPtr) eq_refl (field_of 0 (mkDecl 4 false))
      (@mkVarstruct VoidPtr (mkInternal [] [4; 4]) 4096) [x01; x02; x03; x04]
      (mkBuffer 4096 (repeat x00 4)) = Ok m' /\
    scalar_name 64 (P := VoidPtr) eq_refl (field_of 0 (mkDecl 4 false))
      (@mkVarstruct VoidPtr (mkInternal [] [4; 4]) 4096) m'
    = Ok [x01; x02; x03; x04].
Proof.
  destruct (C5_round_trip 64 [mkDecl 4 false; mkDecl 8 true] [2 ^ 61]
              (mkBuffer 4096 (repeat x00 4))
              (@mkVarstruct VoidPtr (mkInternal [] [4; 4]) 4096)
              0 (field_of 0 (mkDecl 4 false)) [x01; x02; x03; x04]
              ltac:(by_computation) eq_refl eq_refl eq_refl)
    as (Hscalar & _ & Hinside).
  apply Hscalar; [reflexivity|].
  apply Hinside; [reflexivity|vm_compute; discriminate|reflexivity].
Defined.

(** The claim as written fails on a layout whose prefix sums wrap.  An 8-byte
    scalar, [2^61 - 1] elements of 8 bytes and a 4-byte scalar resolve to the
    offsets 8, 0, 4 and [size_bytes = 4]; over a buffer of 8 bytes, element 1
    of the array is in range and lies at byte 16: the write leaves the
    buffer. *)
Lemma C5_counterexample :
  exists v,
    Create_mutable 64 [mkDecl 8 false; mkDecl 8 true; mkDecl 4 false] 4096
      [2 ^ 61 - 1] = Ok v /\
    size_bytes v = 4 /\
    size_bytes v <= Z.of_nat (length (bytes (mkBuffer 4096 (repeat x00 8)))) /\
    0 <= 1 < name_size 64 (field_of 1 (mkDecl 8 true)) v / 8 /\
    element_offset (field_of 1 (mkDecl 8 true)) v 1 = 16 /\
    array_set_name 64 (P := VoidPtr) eq_refl None (field_of 1 (mkDecl 8 true))
      v 1 (repeat x01 8) (mkBuffer 4096 (repeat x00 8)) = Undefined.
Proof.
  eexists. split; [reflexivity|]. split; [reflexivity|].
  split; [vm_compute; discriminate|].
  split; [split; [vm_compute; discriminate|reflexivity]|].
  split; reflexivity.
Qed.

(** C9, as amended.  In a mutable view, a write to a scalar field, or to an
    element of an array field at an index below the element count, whose
    [sizeof(decl_type)] bytes at [start(f) + index * sizeof(decl_type)] lie
    within the buffer succeeds and changes no byte of the buffer outside those
    bytes; when the sum of the field sizes as [CreateInternal] computes them
    is below [2^w], every read of another field, and of another in-range
    element, returns what it returned before the write.  With that sum below
    [2^w] and a buffer of at least [size_bytes] bytes the bytes of every field
    and in-range element lie within the buffer. *)
Theorem C9_write_frame w decls lens m v i f new_value :
  well_formed w decls ->
  Create_mutable w decls (base m) lens = Ok v ->
  fields decls !! i = Some f ->
  Z.of_nat (length new_value) = sizeof_decl f ->
  (is_array f = false ->
   inside m (base m + element_offset f v 0) (sizeof_decl f) = true ->
   exists m',
     scalar_set_name w (P := VoidPtr) eq_refl f v new_value m = Ok m' /\
     same_outside m m' (element_offset f v 0) (sizeof_decl f) /\
     (no_wrap w decls lens -> same_reads w decls v i 0 m m')) /\
  (is_array f = true ->
   forall array_index bounds_check,
     0 <= array_index < name_size w f v / sizeof_decl f ->
     inside m (base m + element_offset f v array_index) (sizeof_decl f) = true ->
     exists m',
       array_set_name w (P := VoidPtr) eq_refl bounds_check f v array_index
         new_value m = Ok m' /\
       same_outside m m' (element_offset f v array_index) (sizeof_decl f) /\
       (no_wrap w decls lens -> same_reads w decls v i array_index m m')) /\
  (no_wrap w decls lens ->
   size_bytes v <= Z.of_nat (length (bytes m)) ->
   forall array_index,
     valid_index w f v array_index ->
     inside m (base m + element_offset f v array_index) (sizeof_decl f) = true).
Proof.
  intros Hwf Hv Hf Hlen.
  destruct (Create_mutable_inv _ _ _ _ _ Hv) as [Hcount ->].
  destruct (fields_lookup_inv _ _ _ Hf) as (d & Hd & ->). simpl in *.
  pose proof (decl_sizeof_range w decls Hwf i d Hd) as Hsz.
  split; [|split].
  - intros Harr Hin.
    destruct (write_inside m _ new_value _ Hin Hlen) as (m' & Hset & _ & Hout).
    exists m'. rewrite scalar_set_name_at. split; [done|]. split; [done|].
    intros Hnowrap.
    apply (reads_preserved_nowrap w decls lens m m' i d 0 new_value);
      try done.
    unfold valid_index. simpl. by rewrite Harr.
  - intros Harr idx bc Hidx Hin.
    destruct (write_inside m _ new_value _ Hin Hlen) as (m' & Hset & _ & Hout).
    exists m'.
    pose proof (name_size_range w VoidPtr decls (base m) lens Hcount i d Hd Hsz)
      as Hrange.
    rewrite (array_set_name_at w _ (field_of i d) (proj1 Hsz) Hrange) by done.
    split; [done|]. split; [done|].
    intros Hnowrap.
    apply (reads_preserved_nowrap w decls lens m m' i d idx new_value);
      try done.
    unfold valid_index. simpl. by rewrite Harr.
  - intros Hnowrap Hbuf idx Hidx.
    by apply element_in_buffer_nowrap.
Qed.

Lemma C9_write_frame_witness :
  exists m',
    array_set_name 64 (P := VoidPtr) eq_refl None (field_of 1 (mkDecl 2 true))
      (@mkVarstruct VoidPtr (mkInternal [] [4; 10; 18]) 4096) 2 [x01; x02]
      (mkBuffer 4096 (repeat x00 18)) = Ok m' /\
    same_outside (mkBuffer 4096 (repeat x00 18)) m' 8 2 /\
    same_reads 64 [mkDecl 4 false; mkDecl 2 true; mkDecl 8 false]
      (@mkVarstruct VoidPtr (mkInternal [] [4; 10; 18]) 4096) 1 2
      (mkBuffer 4096 (repeat x00 18)) m'.
Proof.
  destruct (C9_write_frame 64
              [mkDecl 4 false; mkDecl 2 true; mkDecl 8 false] [3]
              (mkBuffer 4096 (repeat x00 18))
              (@mkVarstruct VoidPtr (mkInternal [] [4; 10; 18]) 4096)
              1 (field_of 1 (mkDecl 2 true)) [x01; x02]
              ltac:(by_computation) eq_refl eq_refl eq_refl)
    as (_ & Harray & Hinside).
  destruct (Harray eq_refl 2 None ltac:(by_computation)) as (m' & Hset & Hout & Hreads).
  { apply Hinside; [reflexivity|vm_compute; discriminate|].
    unfold valid_index. simpl. by_computation. }
  exists m'. split; [exact Hset|]. split; [exact Hout|].
  apply Hreads. reflexivity.
Defined.

(** The claim as written fails on a layout whose prefix sums wrap.  On the
    offsets 8, 0, 4 of an 8-byte scalar, [2^61 - 1] elements of 8 bytes and a
    4-byte scalar, the first and the last field both start at 0: over a buffer
    of 8 bytes, more than [size_bytes = 4], the write of the last field stays
    within the buffer and changes what the first field reads. *)
Lemma C9_counterexample :
  exists v m',
    Create_mutable 64 [mkDecl 8 false; mkDecl 8 true; mkDecl 4 false] 4096
      [2 ^ 61 - 1] = Ok v /\
    size_bytes v <= Z.of_nat (length (bytes (mkBuffer 4096 (repeat x00 8)))) /\
    scalar_set_name 64 (P := VoidPtr) eq_refl (field_of 2 (mkDecl 4 false)) v
      [x01; x02; x03; x04] (mkBuffer 4096 (repeat x00 8)) = Ok m' /\
    scalar_name 64 (P := VoidPtr) eq_refl (field_of 0 (mkDecl 8 false)) v
      (mkBuffer 4096 (repeat x00 8)) = Ok (repeat x00 8) /\
    scalar_name 64 (P := VoidPtr) eq_refl (field_of 0 (mkDecl 8 false)) v m'
    = Ok [x01; x02; x03; x04; x00; x00; x00; x00].
Proof.
  eexists. eexists. split; [reflexivity|].
  split; [vm_compute; discriminate|].
  split; [reflexivity|]. split; reflexivity.
Qed.

(** ** The three variants *)

(** C6.  For a length sequence of the right size, [Create] without a pointer
    and [Create] with a pointer, mutable or const, all succeed, and the three
    views answer [name_offset], [name_size], [size_bytes] and [num_members]
    alike for every field; the condition that enables the read accessors and
    the one that enables the write accessors are both false for [NoPtr]. *)
Theorem C6_offsets_only w decls lens (ptr : Z) :
  length lens = num_arrays decls ->
  exists (v0 : Varstruct NoPtr) (v1 : Varstruct VoidPtr)
         (v2 : Varstruct ConstVoidPtr),
    Create_offsets w decls lens = Ok v0 /\
    Create_mutable w decls ptr lens = Ok v1 /\
    Create_const w decls ptr lens = Ok v2 /\
    (forall f,
        name_offset f v0 = name_offset f v1 /\
        name_offset f v0 = name_offset f v2 /\
        name_size w f v0 = name_size w f v1 /\
        name_size w f v0 = name_size w f v2) /\
    size_bytes v0 = size_bytes v1 /\ size_bytes v0 = size_bytes v2 /\
    num_members v0 = num_members v1 /\ num_members v0 = num_members v2 /\
    num_members v0 = length decls /\
    read_enabled NoPtr = false /\ write_enabled NoPtr = false.
Proof.
  intros Hlen.
  exists (@mkVarstruct NoPtr (mkInternal [] (resolved_offsets w decls lens)) tt),
         (@mkVarstruct VoidPtr (mkInternal [] (resolved_offsets w decls lens)) ptr),
         (@mkVarstruct ConstVoidPtr
            (mkInternal [] (resolved_offsets w decls lens)) ptr).
  unfold Create_offsets, Create_mutable, Create_const.
  rewrite !CreateInternal_ok by done.
  repeat split; try done.
  unfold num_members. simpl. by apply resolved_offsets_length.
Qed.

Lemma C6_offsets_only_witness :
  exists (v0 : Varstruct NoPtr) (v1 : Varstruct VoidPtr),
    Create_offsets 64 [mkDecl 4 false; mkDecl 2 true; mkDecl 8 false] [3] = Ok v0 /\
    Create_mutable 64 [mkDecl 4 false; mkDecl 2 true; mkDecl 8 false] 4096 [3]
    = Ok v1 /\
    size_bytes v0 = size_bytes v1.
Proof.
  destruct (C6_offsets_only 64 [mkDecl 4 false; mkDecl 2 true; mkDecl 8 false]
              [3] 4096 eq_refl)
    as (v0 & v1 & _ & H0 & H1 & _ & _ & Hsize & _).
  exists v0, v1. split; [exact H0|]. split; [exact H1|exact Hsize].
Defined.

(** A view over a const pointer reads and does not write. *)
Lemma const_view_reads_only :
  read_enabled ConstVoidPtr = true /\ write_enabled ConstVoidPtr = false.
Proof. split; reflexivity. Qed.

(** ** Who chooses the bounds-checking policy *)

(** C8, as amended.  Only the array accessors take a bounds-checking flag,
    and the call site may leave it out: left out, the access is the
    bounds-checked one; given, the pointer is formed with the flag given.  The
    scalar accessors take no flag: they form the pointer with bounds checking
    off, and never fail with [OutOfRange]. *)
Theorem C8_bounds_policy w P f (v : Varstruct P) (array_index : Z)
    (new_value : list byte) (m : buffer) :
  (forall en : read_enabled P = true,
      array_name w en None f v array_index m
      = array_name w en (Some true) f v array_index m /\
      (forall b : bool,
          array_name w en (Some b) f v array_index m
          = bind (void_ptr w en b f v array_index)
              (fun src => memcpy_from m src (sizeof_decl f))) /\
      scalar_name w en f v m
      = bind (void_ptr w en false f v 0)
          (fun src => memcpy_from m src (sizeof_decl f)) /\
      ~ OutOfRange (scalar_name w en f v m)) /\
  (forall en : write_enabled P = true,
      array_set_name w en None f v array_index new_value m
      = array_set_name w en (Some true) f v array_index new_value m /\
      (forall b : bool,
          array_set_name w en (Some b) f v array_index new_value m
          = bind (void_ptr w (write_enabled_read en) b f v array_index)
              (fun dst => memcpy_to m dst new_value (sizeof_decl f))) /\
      scalar_set_name w en f v new_value m
      = bind (void_ptr w (write_enabled_read en) false f v 0)
          (fun dst => memcpy_to m dst new_value (sizeof_decl f)) /\
      ~ OutOfRange (scalar_set_name w en f v new_value m)).
Proof.
  split; intros en; (split; [reflexivity|]); (split; [reflexivity|]);
    (split; [reflexivity|]); unfold OutOfRange.
  - unfold scalar_name, void_ptr, kBoundsCheck. simpl.
    apply memcpy_from_not_assertion.
  - unfold scalar_set_name, void_ptr, kBoundsCheck. simpl.
    apply memcpy_to_not_assertion.
Qed.

Lemma C8_bounds_policy_witness :
  array_name 64 (P := VoidPtr) eq_refl None (field_of 1 (mkDecl 2 true))
    (@mkVarstruct VoidPtr (mkInternal [] [4; 10; 18]) 4096) 3
    (mkBuffer 4096 (repeat x00 18))
  = array_name 64 (P := VoidPtr) eq_refl (Some true) (field_of 1 (mkDecl 2 true))
      (@mkVarstruct VoidPtr (mkInternal [] [4; 10; 18]) 4096) 3
      (mkBuffer 4096 (repeat x00 18)).
Proof.
  exact (proj1 (proj1 (C8_bounds_policy 64 VoidPtr (field_of 1 (mkDecl 2 true))
                         (@mkVarstruct VoidPtr (mkInternal [] [4; 10; 18]) 4096)
                         3 [] (mkBuffer 4096 (repeat x00 18))) eq_refl)).
Defined.

(** The claim as written fails: a call site that names no policy is
    bounds-checked all the same.  On the layout 4, 10, 18 the read of element 3
    of the three-element array with the flag left out fails with [OutOfRange],
    where the read with the flag off returns two bytes of the next field; and
    the scalar accessors are wired to [kBoundsCheck = false]. *)
Lemma C8_counterexample :
  OutOfRange
    (array_name 64 (P := VoidPtr) eq_refl None (field_of 1 (mkDecl 2 true))
       (@mkVarstruct VoidPtr (mkInternal [] [4; 10; 18]) 4096) 3
       (mkBuffer 4096 (repeat x00 18))) /\
  array_name 64 (P := VoidPtr) eq_refl (Some false) (field_of 1 (mkDecl 2 true))
    (@mkVarstruct VoidPtr (mkInternal [] [4; 10; 18]) 4096) 3
    (mkBuffer 4096 (repeat x00 18)) = Ok [x00; x00] /\
  kBoundsCheck = false.
Proof. split; [reflexivity|]. split; reflexivity. Qed.

(** ** The scenarios of the specification *)

Example scenario_layout :
  exists v,
    Create_offsets 64 [mkDecl 4 false; mkDecl 2 true; mkDecl 8 false] [3] = Ok v /\
    map (fun f => (name_offset f v, name_size 64 f v))
      (fields [mkDecl 4 false; mkDecl 2 true; mkDecl 8 false])
    = [(0, 4); (4, 6); (10, 8)] /\
    size_bytes v = 18 /\ num_members v = 3%nat.
Proof. eexists. repeat split. Qed.

Example scenario_mismatch :
  LengthMismatch
    (Create_offsets 64 [mkDecl 4 false; mkDecl 2 true; mkDecl 8 false] []) /\
  LengthMismatch
    (Create_offsets 64 [mkDecl 4 false; mkDecl 2 true; mkDecl 8 false] [3; 1]).
Proof. split; [left|right]; reflexivity. Qed.

(** * Further properties of the code *)

(** ** Comparing field names *)

Lemma nonzero_false c : nonzero c = false <-> c = zero.
Proof.
  unfold nonzero. rewrite negb_false_iff. apply Ascii.eqb_eq.
Qed.

Lemma EqualStrings_spec a : forall b,
  EqualStrings a b = true <-> c_str a = c_str b.
Proof.
  induction a as [|ca a IH]; intros b.
  - destruct b as [|cb b]; simpl; [done|].
    destruct (nonzero cb) eqn:Eb; simpl; split; done.
  - destruct b as [|cb b]; simpl.
    + rewrite andb_false_r. simpl. rewrite andb_true_r.
      destruct (nonzero ca); simpl; split; done.
    + destruct (nonzero ca) eqn:Ea, (nonzero cb) eqn:Eb; simpl;
        try (split; done).
      rewrite andb_true_iff, Ascii.eqb_eq, IH. split.
      * by intros [-> ->].
      * by intros [= -> ->].
Qed.

(** X1.  [EqualStrings] answers true exactly when the two pointers denote the
    same C string, the characters before the first NUL; on strings without a
    NUL character, exactly when they are equal.  It is also symmetric. *)
Theorem X1_EqualStrings_correct a b :
  (EqualStrings a b = true <-> c_str a = c_str b) /\
  (c_str a = a -> c_str b = b -> (EqualStrings a b = true <-> a = b)) /\
  EqualStrings a b = EqualStrings b a.
Proof.
  split; [apply EqualStrings_spec|]. split.
  - intros Ha Hb. rewrite EqualStrings_spec. by rewrite Ha, Hb.
  - destruct (EqualStrings a b) eqn:Eab, (EqualStrings b a) eqn:Eba; try done.
    + apply EqualStrings_spec in Eab. symmetry in Eab.
      apply EqualStrings_spec in Eab. congruence.
    + apply EqualStrings_spec in Eba. symmetry in Eba.
      apply EqualStrings_spec in Eba. congruence.
Qed.

Lemma X1_EqualStrings_correct_witness :
  EqualStrings "num_members" "num_members" = true /\
  EqualStrings "size" "size_bytes" = false.
Proof.
  destruct (X1_EqualStrings_correct "num_members" "num_members")
    as (_ & Heq & _).
  destruct (X1_EqualStrings_correct "size" "size_bytes") as (_ & Hne & _).
  split.
  - apply (Heq eq_refl eq_refl). reflexivity.
  - apply not_true_is_false. intros E.
    apply (Hne eq_refl eq_refl) in E. discriminate E.
Defined.

(** X2.  The name assertions of a field declaration pass exactly when the
    name, as a C string, is neither [size_bytes] nor [num_members]; a name
    that only begins with, or is a beginning of, one of them passes. *)
Theorem X2_reserved_names name :
  (name_allowed name = true
   <-> c_str name <> "size_bytes"%string /\ c_str name <> "num_members"%string) /\
  (name_allowed name = false
   <-> c_str name = "size_bytes"%string \/ c_str name = "num_members"%string).
Proof.
  unfold name_allowed.
  pose proof (EqualStrings_spec name "size_bytes") as H1.
  pose proof (EqualStrings_spec name "num_members") as H2.
  change (c_str "size_bytes") with "size_bytes"%string in H1.
  change (c_str "num_members") with "num_members"%string in H2.
  destruct (EqualStrings name "size_bytes"),
           (EqualStrings name "num_members"); simpl;
    intuition congruence.
Qed.

(** ** Construction of the member objects *)

Lemma fields_length decls : length (fields decls) = length decls.
Proof. unfold fields. rewrite construct_fst. by rewrite length_imap. Qed.

(** X3.  Construction gives the members the indices 0, 1, 2, ... in
    declaration order and leaves both vectors with one entry per declaration:
    at the index of a member, [offsets_] holds its [sizeof(decl_type)] and
    [arrays_] holds whether it is an array. *)
Theorem X3_member_indices decls :
  length (offsets_ (snd (construct decls (mkInternal [] [])))) = length decls /\
  length (arrays_ (snd (construct decls (mkInternal [] [])))) = length decls /\
  length (fields decls) = length decls /\
  forall i f,
    fields decls !! i = Some f ->
    index (member_ f) = i /\
    offsets_ (snd (construct decls (mkInternal [] []))) !! index (member_ f)
    = Some (sizeof_decl f) /\
    arrays_ (snd (construct decls (mkInternal [] []))) !! index (member_ f)
    = Some (is_array f).
Proof.
  rewrite construct_snd. simpl. rewrite !length_map.
  split; [done|]. split; [done|]. split.
  - unfold fields. rewrite construct_fst. by rewrite length_imap.
  - intros i f Hf. destruct (fields_lookup_inv _ _ _ Hf) as (d & Hd & ->).
    simpl. split; [done|]. rewrite !list_lookup_fmap, Hd. done.
Qed.

(** ** What a resolved view says about its arrays *)

Lemma CreateInternal_inv w P decls (ptr : ptr_value P) lens v :
  CreateInternal w P decls ptr lens = Ok v ->
  length lens = num_arrays decls /\
  v = mkVarstruct (mkInternal [] (resolved_offsets w decls lens)) ptr.
Proof.
  intros Hv.
  destruct (CreateInternal_cases w P decls ptr lens)
    as [[_ E]|[[Hcount E]|[_ E]]]; rewrite E in Hv; try done.
  by injection Hv as <-.
Qed.

(** X4.  When the layout fits, the size of an array field is its element size
    times the length supplied for it, so the element count that the bounds
    check uses, [name_size / sizeof], is that length. *)
Theorem X4_element_count w P decls (ptr : ptr_value P) lens v i d :
  CreateInternal w P decls ptr lens = Ok v ->
  fits w decls lens ->
  decls !! i = Some d -> decl_array d = true -> 0 < decl_sizeof d ->
  name_size w (field_of i d) v
  = decl_sizeof d * lens !!! num_arrays (take i decls) /\
  name_size w (field_of i d) v / sizeof_decl (field_of i d)
  = lens !!! num_arrays (take i decls).
Proof.
  intros Hv Hfits Hd Harr Hsz.
  destruct (CreateInternal_inv _ _ _ _ _ _ Hv) as [Hcount ->].
  rewrite name_size_exact by done.
  rewrite raw_size_array with (d := d) by (done || lia).
  split; [done|]. simpl.
  rewrite Z.mul_comm. apply Z.div_mul. lia.
Qed.

Lemma X4_element_count_witness :
  exists v,
    Create_offsets 64 [mkDecl 4 false; mkDecl 2 true; mkDecl 8 false] [3] = Ok v /\
    name_size 64 (field_of 1 (mkDecl 2 true)) v / 2 = 3.
Proof.
  eexists. split; [reflexivity|].
  refine (proj2 (X4_element_count 64 NoPtr
                   [mkDecl 4 false; mkDecl 2 true; mkDecl 8 false] tt [3] _
                   1 (mkDecl 2 true) eq_refl _ eq_refl eq_refl eq_refl)).
  split; [|reflexivity].
  simpl. repeat (apply List.Forall_cons; [lia|]). apply List.Forall_nil.
Defined.

(** X5.  An array given the length 0 has size 0, whatever the rest of the
    layout, and every bounds-checked read of it, at any index, fails with
    [OutOfRange]. *)
Theorem X5_empty_array w P decls (ptr : ptr_value P) lens v i d :
  CreateInternal w P decls ptr lens = Ok v ->
  decls !! i = Some d -> decl_array d = true ->
  lens !!! num_arrays (take i decls) = 0 ->
  name_size w (field_of i d) v = 0 /\
  forall (en : read_enabled P = true) bounds_check array_index m,
    template_arg true bounds_check = true ->
    OutOfRange (array_name w en bounds_check (field_of i d) v array_index m).
Proof.
  intros Hv Hd Harr Hzero.
  destruct (CreateInternal_inv _ _ _ _ _ _ Hv) as [Hcount ->].
  assert (Hsize : name_size w (field_of i d)
            (mkVarstruct (mkInternal [] (resolved_offsets w decls lens)) ptr) = 0).
  { rewrite name_size_resolved by done.
    rewrite (scaled_sizes_lookup w decls lens i d) by (done || lia).
    rewrite Harr, raw_size_array with (d := d) by (done || lia).
    rewrite Hzero, Z.mul_0_r. apply Zmod_0_l. }
  split; [done|].
  intros en bc idx m Hbc. unfold OutOfRange, array_name. rewrite Hbc.
  destruct (void_ptr_checked w P en (field_of i d)
              (mkVarstruct (mkInternal [] (resolved_offsets w decls lens)) ptr)
              idx) as [_ Hout].
  rewrite Hout; [done|]. rewrite Hsize, Zdiv_0_l. lia.
Qed.

Lemma X5_empty_array_witness :
  exists v,
    Create_mutable 64 [mkDecl 4 false; mkDecl 2 true] 4096 [0] = Ok v /\
    OutOfRange (array_name 64 (P := VoidPtr) eq_refl None
                  (field_of 1 (mkDecl 2 true)) v 0
                  (mkBuffer 4096 (repeat x00 4))).
Proof.
  eexists. split; [reflexivity|].
  exact (proj2 (X5_empty_array 64 VoidPtr [mkDecl 4 false; mkDecl 2 true]
                  4096 [0] _ 1 (mkDecl 2 true) eq_refl eq_refl eq_refl eq_refl)
               eq_refl None 0 (mkBuffer 4096 (repeat x00 4)) eq_refl).
Defined.

(** ** What the start of a field depends on *)

Lemma raw_size_take decls : forall i lens,
  (num_arrays decls <= length lens)%nat ->
  take i (raw_size decls lens)
  = raw_size (take i decls) (take (num_arrays (take i decls)) lens).
Proof.
  induction decls as [|d rest IH]; intros i lens Hn.
  - cbn [raw_size]. by rewrite !take_nil.
  - destruct i as [|i]; [done|].
    rewrite num_arrays_cons in Hn. cbn [take raw_size].
    rewrite num_arrays_cons. destruct (decl_array d).
    + destruct lens as [|len lens]; [simpl in Hn; lia|].
      cbn [take]. f_equal. apply IH. simpl in Hn. lia.
    + cbn [take]. f_equal. by apply IH.
Qed.

Lemma raw_size_take_agree decls i lens lens' :
  (num_arrays decls <= length lens)%nat ->
  (num_arrays decls <= length lens')%nat ->
  take (num_arrays (take i decls)) lens = take (num_arrays (take i decls)) lens' ->
  take i (raw_size decls lens) = take i (raw_size decls lens').
Proof.
  intros Hn Hn' Hagree. by rewrite !raw_size_take, Hagree by done.
Qed.

(** X6.  The start of a field depends only on the lengths of the arrays
    declared before it: two views of one schema whose length sequences agree
    on the arrays before field [i] give the same start to field [i] and to
    every field before it, and the same size to every field before it. *)
Theorem X6_start_depends_on_earlier_lengths w P decls (ptr : ptr_value P)
    lens lens' v v' i :
  CreateInternal w P decls ptr lens = Ok v ->
  CreateInternal w P decls ptr lens' = Ok v' ->
  take (num_arrays (take i decls)) lens = take (num_arrays (take i decls)) lens' ->
  forall j f,
    (j <= i)%nat -> fields decls !! j = Some f ->
    name_offset f v = name_offset f v' /\
    ((j < i)%nat -> name_size w f v = name_size w f v').
Proof.
  intros Hv Hv' Hagree j f Hj Hf.
  destruct (CreateInternal_inv _ _ _ _ _ _ Hv) as [Hcount ->].
  destruct (CreateInternal_inv _ _ _ _ _ _ Hv') as [Hcount' ->].
  destruct (fields_lookup_inv _ _ _ Hf) as (d & Hd & ->).
  pose proof (lookup_lt_Some _ _ _ Hd) as Hlt.
  pose proof (raw_size_take_agree decls i lens lens'
                ltac:(lia) ltac:(lia) Hagree) as Htake.
  split.
  - rewrite !name_offset_resolved by (done || lia).
    replace (take j (raw_size decls lens))
      with (take j (take i (raw_size decls lens)))
      by (rewrite take_take; f_equal; lia).
    replace (take j (raw_size decls lens'))
      with (take j (take i (raw_size decls lens')))
      by (rewrite take_take; f_equal; lia).
    by rewrite Htake.
  - intros Hji. rewrite !name_size_resolved by done.
    rewrite !(scaled_sizes_lookup w decls _ j d) by (done || lia).
    assert (Hraw : raw_size decls lens !!! j = raw_size decls lens' !!! j).
    { rewrite <- (lookup_total_take_lt (raw_size decls lens) i j) by lia.
      rewrite <- (lookup_total_take_lt (raw_size decls lens') i j) by lia.
      by rewrite Htake. }
    by rewrite Hraw.
Qed.

Lemma X6_start_depends_on_earlier_lengths_witness :
  exists v v',
    Create_offsets 64 [mkDecl 4 false; mkDecl 2 true; mkDecl 8 false; mkDecl 1 true]
      [3; 5] = Ok v /\
    Create_offsets 64 [mkDecl 4 false; mkDecl 2 true; mkDecl 8 false; mkDecl 1 true]
      [3; 900] = Ok v' /\
    name_offset (field_of 3 (mkDecl 1 true)) v
    = name_offset (field_of 3 (mkDecl 1 true)) v'.
Proof.
  eexists. eexists. split; [reflexivity|]. split; [reflexivity|].
  exact (proj1 (X6_start_depends_on_earlier_lengths 64 NoPtr
                  [mkDecl 4 false; mkDecl 2 true; mkDecl 8 false; mkDecl 1 true]
                  tt [3; 5] [3; 900] _ _ 3 eq_refl eq_refl eq_refl
                  3%nat (field_of 3 (mkDecl 1 true)) (le_n 3) eq_refl)).
Defined.

(** ** The extent of a layout *)

(** X7.  When the layout fits, no field starts below 0 or has a negative
    size, every field ends at or before [size_bytes], the last declared field
    ends exactly at [size_bytes], and [size_bytes] is a [size_t] value. *)
Theorem X7_fields_within_size_bytes w P decls (ptr : ptr_value P) lens v :
  CreateInternal w P decls ptr lens = Ok v ->
  fits w decls lens ->
  (forall i f,
      fields decls !! i = Some f ->
      0 <= name_offset f v /\ 0 <= name_size w f v /\
      name_offset f v + name_size w f v <= size_bytes v) /\
  (forall f,
      last (fields decls) = Some f ->
      name_offset f v + name_size w f v = size_bytes v) /\
  0 <= size_bytes v < modulus w.
Proof.
  intros Hv Hfits.
  destruct (CreateInternal_inv _ _ _ _ _ _ Hv) as [Hcount ->].
  assert (Hfield : forall i d,
    decls !! i = Some d ->
    0 <= name_offset (field_of i d)
           (mkVarstruct (mkInternal [] (resolved_offsets w decls lens)) ptr) /\
    0 <= name_size w (field_of i d)
           (mkVarstruct (mkInternal [] (resolved_offsets w decls lens)) ptr)).
  { intros i d Hd. pose proof (lookup_lt_Some _ _ _ Hd) as Hi. split.
    - rewrite name_offset_exact by (done || lia).
      apply sumZ_nonneg, Forall_take, Hfits.
    - rewrite name_size_exact by done.
      refine (proj1 (raw_exact w decls lens Hcount Hfits i _)).
      rewrite raw_size_length; [done|lia]. }
  split; [|split].
  - intros i f Hf. destruct (fields_lookup_inv _ _ _ Hf) as (d & Hd & ->).
    destruct (Hfield i d Hd) as [H0 H1]. split; [done|]. split; [done|].
    by apply field_end_le_size_bytes.
  - intros f Hf. rewrite last_lookup in Hf.
    destruct (fields_lookup_inv _ _ _ Hf) as (d & Hd & ->).
    pose proof (lookup_lt_Some _ _ _ Hd) as Hi.
    rewrite fields_length in *.
    rewrite <- (next_offset_exact w P decls ptr lens Hcount Hfits _ d d) by done.
    rewrite name_offset_exact, size_bytes_exact by (done || lia).
    f_equal. apply take_ge. rewrite raw_size_length; lia.
  - rewrite size_bytes_exact by done. destruct Hfits as [Hnn Hlt].
    split; [by apply sumZ_nonneg|done].
Qed.

Lemma X7_fields_within_size_bytes_witness :
  exists v,
    Create_offsets 64 [mkDecl 4 false; mkDecl 2 true; mkDecl 8 false] [3] = Ok v /\
    name_offset (field_of 2 (mkDecl 8 false)) v
    + name_size 64 (field_of 2 (mkDecl 8 false)) v = size_bytes v.
Proof.
  eexists. split; [reflexivity|].
  refine (proj1 (proj2 (X7_fields_within_size_bytes 64 NoPtr
                   [mkDecl 4 false; mkDecl 2 true; mkDecl 8 false] tt [3] _
                   eq_refl _)) (field_of 2 (mkDecl 8 false)) eq_refl).
  split; [|reflexivity].
  simpl. repeat (apply List.Forall_cons; [lia|]). apply List.Forall_nil.
Defined.

(** ** Sequences of writes *)

Section SpliceLaws.

Context {A : Type}.
Implicit Types (l x y : list A) (off : nat).

Lemma splice_lookup l off x k :
  (off + length x <= length l)%nat ->
  (take off l ++ x ++ drop (off + length x) l) !! k
  = if decide (k < off)%nat then l !! k
    else if decide (k < off + length x)%nat then x !! (k - off)%nat
    else l !! k.
Proof.
  intros Hin. repeat case_decide.
  - apply splice_lookup_outside; [done|lia].
  - replace k with (off + (k - off))%nat at 1 by lia.
    apply splice_lookup_inside; [done|lia].
  - apply splice_lookup_outside; [done|lia].
Qed.

Lemma splice_overwrite l off x y :
  (off + length x <= length l)%nat -> length y = length x ->
  take off (take off l ++ x ++ drop (off + length x) l) ++ y
  ++ drop (off + length y) (take off l ++ x ++ drop (off + length x) l)
  = take off l ++ y ++ drop (off + length y) l.
Proof.
  intros Hin Hlen. apply list_eq. intros k.
  rewrite !splice_lookup by (rewrite ?splice_length; lia).
  repeat case_decide; try lia; done.
Qed.

Lemma splice_commute l off x off' y :
  (off + length x <= length l)%nat -> (off' + length y <= length l)%nat ->
  (off + length x <= off' \/ off' + length y <= off)%nat ->
  take off' (take off l ++ x ++ drop (off + length x) l) ++ y
  ++ drop (off' + length y) (take off l ++ x ++ drop (off + length x) l)
  = take off (take off' l ++ y ++ drop (off' + length y) l) ++ x
    ++ drop (off + length x) (take off' l ++ y ++ drop (off' + length y) l).
Proof.
  intros Hin Hin' Hdisj. apply list_eq. intros k.
  rewrite !splice_lookup by (rewrite ?splice_length; lia).
  repeat case_decide; try lia; done.
Qed.

Lemma splice_same l off n :
  (off + n <= length l)%nat ->
  take off l ++ take n (drop off l)
  ++ drop (off + length (take n (drop off l))) l = l.
Proof.
  intros Hin. rewrite length_take, length_drop, Nat.min_l by lia.
  rewrite <- drop_drop. by rewrite !take_drop.
Qed.

End SpliceLaws.

Lemma memcpy_from_Ok m src n :
  inside m src n = true -> 0 <= n ->
  exists x,
    memcpy_from m src n = Ok x /\ Z.of_nat (length x) = n.
Proof.
  intros Hin Hn. unfold memcpy_from. rewrite Hin. eexists. split; [done|].
  apply inside_true in Hin.
  rewrite length_take, length_drop. lia.
Qed.

Lemma memcpy_to_overwrite m dst x y n m1 :
  memcpy_to m dst x n = Ok m1 -> Z.of_nat (length y) = n ->
  memcpy_to m1 dst y n = memcpy_to m dst y n.
Proof.
  intros H1 Hy. destruct (memcpy_to_inv _ _ _ _ _ H1) as [Hin Hx].
  destruct (memcpy_to_shape _ _ _ _ _ H1) as [Hbase Hlen].
  assert (Hin1 : inside m1 dst n = true).
  { unfold inside. rewrite Hbase, Hlen. exact Hin. }
  rewrite (memcpy_to_Ok m1) by done. rewrite (memcpy_to_Ok m dst y) by done.
  rewrite memcpy_to_Ok in H1 by done. injection H1 as <-. simpl.
  apply inside_true in Hin. do 2 f_equal.
  apply splice_overwrite; lia.
Qed.

Lemma memcpy_to_commute m dst x n dst' y n' m1 m2 :
  memcpy_to m dst x n = Ok m1 -> memcpy_to m dst' y n' = Ok m2 ->
  dst + n <= dst' \/ dst' + n' <= dst ->
  exists m12,
    memcpy_to m1 dst' y n' = Ok m12 /\ memcpy_to m2 dst x n = Ok m12.
Proof.
  intros H1 H2 Hdisj.
  destruct (memcpy_to_inv _ _ _ _ _ H1) as [Hin Hx].
  destruct (memcpy_to_inv _ _ _ _ _ H2) as [Hin' Hy].
  destruct (memcpy_to_shape _ _ _ _ _ H1) as [Hbase1 Hlen1].
  destruct (memcpy_to_shape _ _ _ _ _ H2) as [Hbase2 Hlen2].
  assert (Hin1 : inside m1 dst' n' = true).
  { unfold inside. rewrite Hbase1, Hlen1. exact Hin'. }
  assert (Hin2 : inside m2 dst n = true).
  { unfold inside. rewrite Hbase2, Hlen2. exact Hin. }
  eexists. split; [by apply memcpy_to_Ok|].
  rewrite (memcpy_to_Ok m2) by done.
  rewrite memcpy_to_Ok in H1, H2 by done.
  injection H1 as <-. injection H2 as <-. simpl.
  apply inside_true in Hin, Hin'. do 2 f_equal. symmetry.
  apply splice_commute; lia.
Qed.

Lemma memcpy_write_back m src n x :
  memcpy_from m src n = Ok x -> 0 <= n -> memcpy_to m src x n = Ok m.
Proof.
  intros Hget Hn. unfold memcpy_from in Hget.
  destruct (inside m src n) eqn:Hin; [|done]. injection Hget as <-.
  pose proof Hin as Hin'. apply inside_true in Hin'.
  rewrite memcpy_to_Ok; [|done|rewrite length_take, length_drop; lia].
  destruct m as [b l]. simpl in *. do 2 f_equal.
  apply splice_same. lia.
Qed.

Section FieldOps.

Variables (w : positive) (decls : list FieldDecl) (lens : list Z) (p : Z).
Hypothesis Hwf : well_formed w decls.
Hypothesis Hcount : length lens = num_arrays decls.

Local Abbreviation v :=
  (@mkVarstruct VoidPtr (mkInternal [] (resolved_offsets w decls lens)) p).

Lemma field_set_at i d bounds_check array_index new_value m :
  decls !! i = Some d ->
  valid_index w (field_of i d) v array_index ->
  field_set w bounds_check (field_of i d) v array_index new_value m
  = memcpy_to m (p + element_offset (field_of i d) v array_index) new_value
      (decl_sizeof d).
Proof.
  intros Hd Hidx. pose proof (decl_sizeof_range w decls Hwf i d Hd) as Hsz.
  unfold field_set, valid_index in *. simpl in *.
  destruct (decl_array d) eqn:Harr.
  - pose proof (name_size_range w VoidPtr decls p lens Hcount i d Hd Hsz)
      as Hrange.
    by rewrite (array_set_name_at w v (field_of i d) (proj1 Hsz) Hrange).
  - subst array_index. by rewrite scalar_set_name_at.
Qed.

Lemma field_get_at i d bounds_check array_index m :
  decls !! i = Some d ->
  valid_index w (field_of i d) v array_index ->
  field_get w bounds_check (field_of i d) v array_index m
  = memcpy_from m (p + element_offset (field_of i d) v array_index)
      (decl_sizeof d).
Proof.
  intros Hd Hidx. pose proof (decl_sizeof_range w decls Hwf i d Hd) as Hsz.
  unfold field_get, valid_index in *. simpl in *.
  destruct (decl_array d) eqn:Harr.
  - pose proof (name_size_range w VoidPtr decls p lens Hcount i d Hd Hsz)
      as Hrange.
    by rewrite (array_name_at w v (field_of i d) (proj1 Hsz) Hrange).
  - subst array_index. by rewrite scalar_name_at.
Qed.

End FieldOps.

Lemma sufficient_same_length w decls lens m m' :
  length (bytes m') = length (bytes m) ->
  sufficient w decls lens m -> sufficient w decls lens m'.
Proof. unfold sufficient. by intros ->. Qed.

(** X8.  In a mutable view over a sufficient buffer, writing [x] and then
    [y] to the same element leaves the buffer that writing [y] alone leaves,
    and the element then reads [y]. *)
Theorem X8_last_write_wins w decls lens m v i f array_index x y
    bounds_check bounds_check' :
  well_formed w decls -> Forall (size_t w) lens ->
  Create_mutable w decls (base m) lens = Ok v ->
  sufficient w decls lens m ->
  fields decls !! i = Some f ->
  valid_index w f v array_index ->
  Z.of_nat (length x) = sizeof_decl f -> Z.of_nat (length y) = sizeof_decl f ->
  exists m1 m2,
    field_set w bounds_check f v array_index x m = Ok m1 /\
    field_set w bounds_check' f v array_index y m1 = Ok m2 /\
    field_set w bounds_check' f v array_index y m = Ok m2 /\
    field_get w bounds_check f v array_index m2 = Ok y.
Proof.
  intros Hwf Hlens Hv Hsuff Hf Hidx Hx Hy.
  destruct (Create_mutable_inv _ _ _ _ _ Hv) as [Hcount ->].
  destruct (fields_lookup_inv _ _ _ Hf) as (d & Hd & ->). simpl in Hx, Hy.
  destruct (write_element w decls lens m i d array_index x
              Hwf Hlens Hcount Hsuff Hd Hx Hidx) as (m1 & Hset1 & _).
  destruct (write_element w decls lens m i d array_index y
              Hwf Hlens Hcount Hsuff Hd Hy Hidx) as (m2 & Hset2 & Hget2 & _).
  exists m1, m2.
  rewrite !(field_set_at w decls lens (base m) Hwf Hcount i d) by done.
  rewrite (field_get_at w decls lens (base m) Hwf Hcount i d) by done.
  split; [done|]. split; [|done].
  by rewrite (memcpy_to_overwrite _ _ _ _ _ _ Hset1 Hy).
Qed.

(** X9.  In a mutable view over a sufficient buffer, writes to two different
    elements (of different fields, or of one array at different indices) can
    be made in either order: both orders succeed and leave the same buffer. *)
Theorem X9_writes_commute w decls lens m v i j f g array_index array_index' x y
    bounds_check bounds_check' :
  well_formed w decls -> Forall (size_t w) lens ->
  Create_mutable w decls (base m) lens = Ok v ->
  sufficient w decls lens m ->
  fields decls !! i = Some f -> fields decls !! j = Some g ->
  valid_index w f v array_index -> valid_index w g v array_index' ->
  i <> j \/ array_index <> array_index' ->
  Z.of_nat (length x) = sizeof_decl f -> Z.of_nat (length y) = sizeof_decl g ->
  exists m1 m2 m12,
    field_set w bounds_check f v array_index x m = Ok m1 /\
    field_set w bounds_check' g v array_index' y m1 = Ok m12 /\
    field_set w bounds_check' g v array_index' y m = Ok m2 /\
    field_set w bounds_check f v array_index x m2 = Ok m12.
Proof.
  intros Hwf Hlens Hv Hsuff Hf Hg Hidx Hidx' Hne Hx Hy.
  destruct (Create_mutable_inv _ _ _ _ _ Hv) as [Hcount ->].
  destruct (fields_lookup_inv _ _ _ Hf) as (d & Hd & ->).
  destruct (fields_lookup_inv _ _ _ Hg) as (d' & Hd' & ->). simpl in Hx, Hy.
  destruct (write_element w decls lens m i d array_index x
              Hwf Hlens Hcount Hsuff Hd Hx Hidx) as (m1 & Hset1 & _).
  destruct (write_element w decls lens m j d' array_index' y
              Hwf Hlens Hcount Hsuff Hd' Hy Hidx') as (m2 & Hset2 & _).
  pose proof (elements_disjoint w decls lens m Hwf Hlens Hcount Hsuff
                i j d d' array_index array_index' Hd Hd' Hidx Hidx' Hne)
    as Hdisj.
  destruct (memcpy_to_commute _ _ _ _ _ _ _ _ _ Hset1 Hset2) as (m12 & H12 & H21);
    [lia|].
  exists m1, m2, m12.
  rewrite !(field_set_at w decls lens (base m) Hwf Hcount i d) by done.
  rewrite !(field_set_at w decls lens (base m) Hwf Hcount j d') by done.
  done.
Qed.

(** X10.  In a mutable view over a sufficient buffer, every element reads as
    [sizeof(decl_type)] bytes, and writing back the value just read leaves the
    buffer as it was. *)
Theorem X10_write_back w decls lens m v i f array_index bounds_check bounds_check' :
  well_formed w decls -> Forall (size_t w) lens ->
  Create_mutable w decls (base m) lens = Ok v ->
  sufficient w decls lens m ->
  fields decls !! i = Some f ->
  valid_index w f v array_index ->
  exists x,
    field_get w bounds_check f v array_index m = Ok x /\
    Z.of_nat (length x) = sizeof_decl f /\
    field_set w bounds_check' f v array_index x m = Ok m.
Proof.
  intros Hwf Hlens Hv Hsuff Hf Hidx.
  destruct (Create_mutable_inv _ _ _ _ _ Hv) as [Hcount ->].
  destruct (fields_lookup_inv _ _ _ Hf) as (d & Hd & ->). simpl.
  pose proof (decl_sizeof_range w decls Hwf i d Hd) as Hsz.
  pose proof (element_in_buffer w decls lens m Hwf Hlens Hcount Hsuff
                i d array_index Hd Hidx) as Hin.
  destruct (memcpy_from_Ok _ _ _ Hin ltac:(lia)) as (x & Hget & Hlen).
  exists x.
  rewrite (field_set_at w decls lens (base m) Hwf Hcount i d) by done.
  rewrite (field_get_at w decls lens (base m) Hwf Hcount i d) by done.
  split; [done|]. split; [done|].
  apply (memcpy_write_back _ _ _ _ Hget). lia.
Qed.


Lemma X8_last_write_wins_witness :
  exists m1 m2,
    field_set 64 None (field_of 1 (mkDecl 2 true))
      (@mkVarstruct VoidPtr (mkInternal [] [4; 10; 18]) 4096) 2 [x01; x02]
      (mkBuffer 4096 (repeat x00 18)) = Ok m1 /\
    field_set 64 None (field_of 1 (mkDecl 2 true))
      (@mkVarstruct VoidPtr (mkInternal [] [4; 10; 18]) 4096) 2 [x03; x04] m1
    = Ok m2 /\
    field_get 64 None (field_of 1 (mkDecl 2 true))
      (@mkVarstruct VoidPtr (mkInternal [] [4; 10; 18]) 4096) 2 m2
    = Ok [x03; x04].
Proof.
  destruct (X8_last_write_wins 64
              [mkDecl 4 false; mkDecl 2 true; mkDecl 8 false] [3]
              (mkBuffer 4096 (repeat x00 18))
              (@mkVarstruct VoidPtr (mkInternal [] [4; 10; 18]) 4096)
              1 (field_of 1 (mkDecl 2 true)) 2 [x01; x02] [x03; x04] None None
              ltac:(by_computation) ltac:(by_computation) eq_refl
              ltac:(by_computation)
              eq_refl ltac:(unfold valid_index; simpl; by_computation)
              eq_refl eq_refl)
    as (m1 & m2 & H1 & H2 & _ & H4).
  exists m1, m2. split; [exact H1|]. split; [exact H2|exact H4].
Defined.

Lemma X9_writes_commute_witness :
  exists m1 m2 m12,
    field_set 64 None (field_of 1 (mkDecl 2 true))
      (@mkVarstruct VoidPtr (mkInternal [] [4; 10; 18]) 4096) 2 [x01; x02]
      (mkBuffer 4096 (repeat x00 18)) = Ok m1 /\
    field_set 64 None (field_of 0 (mkDecl 4 false))
      (@mkVarstruct VoidPtr (mkInternal [] [4; 10; 18]) 4096) 0
      [x0a; x0b; x0c; x0d] m1 = Ok m12 /\
    field_set 64 None (field_of 0 (mkDecl 4 false))
      (@mkVarstruct VoidPtr (mkInternal [] [4; 10; 18]) 4096) 0
      [x0a; x0b; x0c; x0d] (mkBuffer 4096 (repeat x00 18)) = Ok m2 /\
    field_set 64 None (field_of 1 (mkDecl 2 true))
      (@mkVarstruct VoidPtr (mkInternal [] [4; 10; 18]) 4096) 2 [x01; x02] m2
    = Ok m12.
Proof.
  exact (X9_writes_commute 64
           [mkDecl 4 false; mkDecl 2 true; mkDecl 8 false] [3]
           (mkBuffer 4096 (repeat x00 18))
           (@mkVarstruct VoidPtr (mkInternal [] [4; 10; 18]) 4096)
           1 0 (field_of 1 (mkDecl 2 true)) (field_of 0 (mkDecl 4 false))
           2 0 [x01; x02] [x0a; x0b; x0c; x0d] None None
           ltac:(by_computation) ltac:(by_computation) eq_refl
           ltac:(by_computation) eq_refl eq_refl
           ltac:(unfold valid_index; simpl; by_computation) eq_refl
           ltac:(left; discriminate) eq_refl eq_refl).
Defined.

Lemma X10_write_back_witness :
  exists x,
    field_get 64 None (field_of 2 (mkDecl 8 false))
      (@mkVarstruct VoidPtr (mkInternal [] [4; 10; 18]) 4096) 0
      (mkBuffer 4096 (repeat x2a 18)) = Ok x /\
    Z.of_nat (length x) = 8 /\
    field_set 64 None (field_of 2 (mkDecl 8 false))
      (@mkVarstruct VoidPtr (mkInternal [] [4; 10; 18]) 4096) 0 x
      (mkBuffer 4096 (repeat x2a 18)) = Ok (mkBuffer 4096 (repeat x2a 18)).
Proof.
  exact (X10_write_back 64
           [mkDecl 4 false; mkDecl 2 true; mkDecl 8 false] [3]
           (mkBuffer 4096 (repeat x2a 18))
           (@mkVarstruct VoidPtr (mkInternal [] [4; 10; 18]) 4096)
           2 (field_of 2 (mkDecl 8 false)) 0 None None
           ltac:(by_computation) ltac:(by_computation) eq_refl
           ltac:(by_computation) eq_refl eq_refl).
Defined.


(** ** Views of one buffer *)

(** X12.  A view made from a const pointer reads what a view made from the
    mutable pointer to the same address, with the same lengths, reads: the
    scalar and the array read accessors of the two agree on every buffer,
    every field, every index and every flag. *)
Theorem X12_const_view_reads_alike w decls (ptr : Z) lens vm vc :
  Create_mutable w decls ptr lens = Ok vm ->
  Create_const w decls ptr lens = Ok vc ->
  forall f bounds_check array_index m,
    scalar_name w (P := ConstVoidPtr) eq_refl f vc m
    = scalar_name w (P := VoidPtr) eq_refl f vm m /\
    array_name w (P := ConstVoidPtr) eq_refl bounds_check f vc array_index m
    = array_name w (P := VoidPtr) eq_refl bounds_check f vm array_index m /\
    name_offset f vc = name_offset f vm /\
    name_size w f vc = name_size w f vm.
Proof.
  unfold Create_mutable, Create_const. intros Hm Hc.
  destruct (CreateInternal_inv _ _ _ _ _ _ Hm) as [_ ->].
  destruct (CreateInternal_inv _ _ _ _ _ _ Hc) as [_ ->].
  intros f bc idx m. repeat split.
Qed.

Lemma X12_const_view_reads_alike_witness :
  exists vm vc,
    Create_mutable 64 [mkDecl 4 false; mkDecl 2 true; mkDecl 8 false] 4096 [3]
    = Ok vm /\
    Create_const 64 [mkDecl 4 false; mkDecl 2 true; mkDecl 8 false] 4096 [3]
    = Ok vc /\
    array_name 64 (P := ConstVoidPtr) eq_refl None (field_of 1 (mkDecl 2 true))
      vc 1 (mkBuffer 4096 (repeat x2a 18))
    = array_name 64 (P := VoidPtr) eq_refl None (field_of 1 (mkDecl 2 true))
        vm 1 (mkBuffer 4096 (repeat x2a 18)).
Proof.
  eexists. eexists. split; [reflexivity|]. split; [reflexivity|].
  exact (proj1 (proj2 (X12_const_view_reads_alike 64
                  [mkDecl 4 false; mkDecl 2 true; mkDecl 8 false] 4096 [3]
                  _ _ eq_refl eq_refl
                  (field_of 1 (mkDecl 2 true)) None 1
                  (mkBuffer 4096 (repeat x2a 18))))).
Defined.

(** ** One past the end of an array *)

(** X13.  When the layout fits, the pointer formed with bounds checking off
    at the index equal to the element count of an array is the pointer to the
    start of the field declared next: the unchecked access one past the end
    of an array is an access to the next field. *)
Theorem X13_one_past_the_end w P (en : read_enabled P = true) decls
    (ptr : ptr_value P) lens v i d d' :
  CreateInternal w P decls ptr lens = Ok v ->
  fits w decls lens ->
  decls !! i = Some d -> decls !! S i = Some d' ->
  decl_array d = true -> 0 < decl_sizeof d ->
  void_ptr w en false (field_of i d) v
    (name_size w (field_of i d) v / sizeof_decl (field_of i d))
  = Ok (char_ptr P en (ptr_ v) + name_offset (field_of (S i) d') v) /\
  void_ptr w en false (field_of i d) v
    (name_size w (field_of i d) v / sizeof_decl (field_of i d))
  = void_ptr w en false (field_of (S i) d') v 0.
Proof.
  intros Hv Hfits Hd Hd' Harr Hsz.
  destruct (CreateInternal_inv _ _ _ _ _ _ Hv) as [Hcount ->].
  pose proof (lookup_lt_Some _ _ _ Hd) as Hi.
  assert (Hraw : (i < length (raw_size decls lens))%nat).
  { rewrite raw_size_length; [done|lia]. }
  pose proof (raw_exact w decls lens Hcount Hfits i Hraw) as Hrange.
  pose proof (next_offset_exact w P decls ptr lens Hcount Hfits i d d' Hd)
    as Hnext.
  pose proof (name_size_exact w P decls ptr lens Hcount Hfits i d Hd) as Hsize.
  unfold void_ptr. simpl in *. rewrite Hnext, Hsize.
  rewrite raw_size_array with (d := d) in * by (done || lia).
  rewrite (Z.mul_comm (decl_sizeof d)), Z.div_mul by lia.
  rewrite wrap_small by lia.
  unfold wrap. rewrite Z.mul_0_l, Zmod_0_l.
  split; f_equal; lia.
Qed.

Lemma X13_one_past_the_end_witness :
  exists v,
    Create_mutable 64 [mkDecl 4 false; mkDecl 2 true; mkDecl 8 false] 4096 [3]
    = Ok v /\
    void_ptr 64 (P := VoidPtr) eq_refl false (field_of 1 (mkDecl 2 true)) v 3
    = void_ptr 64 (P := VoidPtr) eq_refl false (field_of 2 (mkDecl 8 false)) v 0.
Proof.
  eexists. split; [reflexivity|].
  refine (proj2 (X13_one_past_the_end 64 VoidPtr eq_refl
                   [mkDecl 4 false; mkDecl 2 true; mkDecl 8 false] 4096 [3] _
                   1 (mkDecl 2 true) (mkDecl 8 false)
                   eq_refl _ eq_refl eq_refl eq_refl eq_refl)).
  split; [|reflexivity].
  simpl. repeat (apply List.Forall_cons; [lia|]). apply List.Forall_nil.
Defined.
